(** * The incremental scroll-and-extract engine of [scraper_for_reviews.py]

    A shallow embedding of the collection loop ([stream_scroll_collect]),
    the block detector ([detect_captcha_or_block]), the recovery handler
    ([handle_captcha_interactive]), the start-up replay ([load_seen_keys])
    and the per-source driver ([main]), followed by the properties of the
    specification that concern them.

    Conventions.
    - A Python [str] is a [string] holding its UTF-8 bytes, so that
      [s.encode("utf-8")] is the identity; substring tests, [replace] and
      [split] on ASCII separators are byte-wise, which agrees with the
      code-point versions on well-formed UTF-8.
    - Python [int]s and JavaScript integral numbers are [Z].
    - The rendering surface, the operator's terminal and the clock are not
      part of the program: what the program reads from them is supplied by
      oracles ([page_state], [card], [round_env], [source_env], the [stdin]
      and [clock] fields of [world]).
    - The operator types finitely many lines; [input] raises [EOFError]
      after the last one. Exceptions are those of the calls the oracles
      answer for; the [debug] prints are left out.
    - Library functions whose full definition lives outside the repository
      (hashlib, [float], [str.strip], [str.lower], the regular-expression
      engine) are the fields of the class [Runtime]; every theorem holds for
      all instances, and [reference_runtime] is one instance that computes. *)

From Stdlib Require Import ZArith Ascii String List Bool Lia.
From stdpp Require Import gmap strings list.

Open Scope Z_scope.

(** ** Byte-wise string operations *)

Module Str.

(** [needle in hay] *)
Fixpoint contains (needle hay : string) : bool :=
  String.prefix needle hay ||
  match hay with
  | EmptyString => false
  | String _ rest => contains needle rest
  end.

(** [s.endswith(suffix)] *)
Definition endswith (suffix s : string) : bool :=
  String.prefix (String.rev suffix) (String.rev s).

(** [s.startswith(p)] *)
Definition startswith (p s : string) : bool := String.prefix p s.

Fixpoint map (f : ascii → ascii) (s : string) : string :=
  match s with
  | EmptyString => EmptyString
  | String c rest => String (f c) (map f rest)
  end.

(** [s.replace(",", ".")] *)
Definition replace_comma_by_dot (s : string) : string :=
  map (fun c => if Ascii.eqb c "," then "."%char else c) s.

(** [s.split(sep)[0]] for a one-character separator *)
Fixpoint before (sep : ascii) (s : string) : string :=
  match s with
  | EmptyString => EmptyString
  | String c rest => if Ascii.eqb c sep then EmptyString else String c (before sep rest)
  end.

Definition is_empty (s : string) : bool :=
  match s with EmptyString => true | _ => false end.

Fixpoint drop_while (p : ascii → bool) (s : string) : string :=
  match s with
  | EmptyString => EmptyString
  | String c rest => if p c then drop_while p rest else s
  end.

Fixpoint take_while (p : ascii → bool) (s : string) : string :=
  match s with
  | EmptyString => EmptyString
  | String c rest => if p c then String c (take_while p rest) else EmptyString
  end.

Definition trim_with (p : ascii → bool) (s : string) : string :=
  String.rev (drop_while p (String.rev (drop_while p s))).

Definition code (c : ascii) : Z := Z.of_N (N_of_ascii c).

Definition is_digit (c : ascii) : bool := (48 <=? code c) && (code c <=? 57).

Fixpoint digits_value (acc : Z) (s : string) : Z :=
  match s with
  | EmptyString => acc
  | String c rest => digits_value (10 * acc + (code c - 48)) rest
  end.

End Str.

(** ** SHA-1 (FIPS 180-4), for the reference runtime *)

Module SHA1.

Definition w32 (x : Z) : Z := x mod 2 ^ 32.

Definition rotl (n x : Z) : Z :=
  w32 (Z.lor (Z.shiftl x n) (Z.shiftr x (32 - n))).

Fixpoint bytes_of_string (s : string) : list Z :=
  match s with
  | EmptyString => []
  | String c rest => Str.code c :: bytes_of_string rest
  end.

(** big-endian bytes of [x], [n] of them *)
Fixpoint be_bytes (n : nat) (x : Z) : list Z :=
  match n with
  | O => []
  | S k => Z.shiftr x (8 * Z.of_nat k) mod 256 :: be_bytes k x
  end.

Definition pad (msg : list Z) : list Z :=
  let len := Z.of_nat (length msg) in
  let zeros := Z.to_nat ((55 - len) mod 64) in
  msg ++ [128] ++ repeat 0 zeros ++ be_bytes 8 (8 * len).

Fixpoint be_words (fuel : nat) (bs : list Z) : list Z :=
  match fuel, bs with
  | S k, a :: b :: c :: d :: rest =>
      (((a * 256 + b) * 256 + c) * 256 + d) :: be_words k rest
  | _, _ => []
  end.

(** The message schedule, latest word first: [ws] holds [w(t-1), w(t-2), ...]. *)
Fixpoint schedule (n : nat) (ws : list Z) : list Z :=
  match n with
  | O => ws
  | S k =>
      let w := rotl 1 (Z.lxor (Z.lxor (nth 2 ws 0) (nth 7 ws 0))
                              (Z.lxor (nth 13 ws 0) (nth 15 ws 0))) in
      schedule k (w :: ws)
  end.

Definition f_k (t a b c d : Z) : Z * Z :=
  if t <? 20 then (Z.lor (Z.land b c) (Z.land (w32 (Z.lnot b)) d), 1518500249)
  else if t <? 40 then (Z.lxor (Z.lxor b c) d, 1859775393)
  else if t <? 60 then
    (Z.lor (Z.lor (Z.land b c) (Z.land b d)) (Z.land c d), 2400959708)
  else (Z.lxor (Z.lxor b c) d, 3395469782).

Record hstate := H { ha : Z; hb : Z; hc : Z; hd : Z; he : Z }.

Fixpoint rounds (t : Z) (ws : list Z) (s : hstate) : hstate :=
  match ws with
  | [] => s
  | w :: rest =>
      let '(f, k) := f_k t (ha s) (hb s) (hc s) (hd s) in
      let tmp := w32 (rotl 5 (ha s) + f + he s + k + w) in
      rounds (t + 1) rest (H tmp (ha s) (rotl 30 (hb s)) (hc s) (hd s))
  end.

Definition compress (s : hstate) (block : list Z) : hstate :=
  let ws := rev (schedule 64 (rev (be_words 16 block))) in
  let r := rounds 0 ws s in
  H (w32 (ha s + ha r)) (w32 (hb s + hb r)) (w32 (hc s + hc r))
    (w32 (hd s + hd r)) (w32 (he s + he r)).

Fixpoint blocks (fuel : nat) (bs : list Z) (s : hstate) : hstate :=
  match fuel, bs with
  | S k, _ :: _ => blocks k (skipn 64 bs) (compress s (firstn 64 bs))
  | _, _ => s
  end.

Definition init : hstate := H 1732584193 4023233417 2562383102 271733878 3285377520.

Definition hex_digit (d : Z) : ascii :=
  ascii_of_N (Z.to_N (if d <? 10 then 48 + d else 87 + d)).

Fixpoint hex (n : nat) (x : Z) (tail : string) : string :=
  match n with
  | O => tail
  | S k => hex k (x / 16) (String (hex_digit (x mod 16)) tail)
  end.

Definition hexdigest (s : string) : string :=
  let bs := pad (bytes_of_string s) in
  let r := blocks (length bs) bs init in
  hex 8 (ha r) (hex 8 (hb r) (hex 8 (hc r) (hex 8 (hd r) (hex 8 (he r) ""))))%string.

End SHA1.

(** ** Library functions *)

(** A Python float, held as the decimal number it is equal to (every
    binary64 number is one): [Finite s m e] is [(-1)^s * m * 10^e]. *)
Inductive pyfloat :=
| Finite (negative : bool) (mantissa : Z) (exp10 : Z)
| Infinity (negative : bool)
| NaN.

Class Runtime := {
  (** [hashlib.sha1(b).hexdigest()] on the UTF-8 bytes of its argument *)
  hashlib_sha1_hexdigest : string → string;
  (** the builtin [float]; [None] stands for [ValueError] *)
  py_float : string → option pyfloat;
  (** [str.strip] and [str.lower] *)
  str_strip : string → string;
  str_lower : string → string;
  (** JavaScript's [String.prototype.trim] *)
  js_trim : string → string;
  (** [CAPTION_RE.match(s)]: the group [title] and [int] of the group [level] *)
  CAPTION_RE_match : string → option (string * Z);
  (** [ORG_ID_RE.search(s)]: group 1 *)
  ORG_ID_RE_search : string → option string;
}.

(** ** Data model *)

(** What the program can read of the page at one moment: its address and
    the inner text of [body]; [None] when reading the text raises
    (time-out or any other [Exception]). *)
Record page_state := Page {
  page_url : string;
  body_inner_text : option string;
}.

Inductive exn := PwTimeoutError | KeyboardInterrupt | EOFError | OtherException.

Inductive result (A : Type) :=
| Ok (a : A)
| Raise (e : exn).
Arguments Ok {A} a.
Arguments Raise {A} e.

(** The three answers of the recovery handler: ["quit"], ["skip"], ["continue"]. *)
Inductive action := ActQuit | ActSkip | ActContinue.

(** One review card of the DOM, as [js_extract_new] reads it: the raw
    attribute, the outcome of the first and of the second expansion
    ([clickExpandWithin] then [readText]), and the raw fields. *)
Record card := Card {
  aria_posinset : option string;
  expand_clicks_first : nat;
  text_first : string;
  expand_clicks_second : nat;
  text_second : string;
  user_link_href : option string;
  author_caption_text : option string;
  rating_content : option string;
  date_content : option string;
}.

(** One element of [items] in the value returned by [js_extract_new]. *)
Record item := Item {
  it_pos : Z;
  it_author_id : string;
  it_caption : string;
  it_rating_raw : string;
  it_date_iso : string;
  it_text : string;
  it_expandClicks : Z;
  it_stillEllipsis : bool;
}.

(** One line of the output file. *)
Record Row := MkRow {
  review_key : string;
  org_id : string;
  restaurant_name : string;
  author_id : string;
  author_caption : string;
  author_badge : string;
  author_level : option Z;
  date_iso : string;
  date : string;
  rating_raw : string;
  rating : option pyfloat;
  text : string;
  source_url : string;
  scraped_at_unix : Z;
}.

Inductive message :=
| MsgCaptchaHeadless (url : string)
| MsgCaptchaBanner
| MsgStillCaptcha
| MsgQuit
| MsgSkipCaptcha (idx : Z) (url : string)
| MsgNotFound (idx : Z) (url : string)
| MsgWritten (idx : Z) (url : string) (written : Z)
| MsgTimeout (idx : Z) (url : string)
| MsgInterrupted
| MsgError (idx : Z) (url : string)
| MsgDone.

Section Collector.
Context `{RT : Runtime}.

(** The output file opened in append mode: what has reached the file and
    what [write] has buffered since the last [flush]. Only the lines added
    by this run are held. *)
Record out_file := OutFile {
  flushed : list Row;
  pending : list Row;
}.

Definition written_rows (f : out_file) : list Row := flushed f ++ pending f.

Definition file_write (r : Row) (f : out_file) : out_file :=
  OutFile (flushed f) (pending f ++ [r]).

Definition file_flush (f : out_file) : out_file :=
  OutFile (flushed f ++ pending f) [].

(** The mutable state shared by the whole run: the seen-key set, the
    output file, the lines the operator will type (each with the page as it
    is when the handler looks again), the clock ([clock w k] is what
    [int(time.time())] gives at the k-th reading from now on), and what has
    been printed. *)
Record world := World {
  seen_keys : gset string;
  out_f : out_file;
  stdin : list (string * page_state);
  clock : nat → Z;
  stdout : list message;
}.

Definition rows_of (w : world) : list Row := written_rows (out_f w).

(** *** State and exceptions *)

Definition M (A : Type) : Type := world → result A * world.

Definition ret {A} (a : A) : M A := fun w => (Ok a, w).

Definition raise {A} (e : exn) : M A := fun w => (Raise e, w).

Definition bind {A B} (m : M A) (k : A → M B) : M B :=
  fun w =>
    match m w with
    | (Ok a, w') => k a w'
    | (Raise e, w') => (Raise e, w')
    end.

Notation "'let*' x ':=' m 'in' k" := (bind m (fun x => k))
  (at level 10, x name, m at level 100, k at level 200).
Notation "m ';;' k" := (bind m (fun _ => k))
  (at level 100, k at level 200, right associativity).

Definition print (m : message) : M unit :=
  fun w => (Ok tt, World (seen_keys w) (out_f w) (stdin w) (clock w) (stdout w ++ [m])).

Definition out_write (r : Row) : M unit :=
  fun w => (Ok tt, World (seen_keys w) (file_write r (out_f w)) (stdin w) (clock w) (stdout w)).

Definition out_flush : M unit :=
  fun w => (Ok tt, World (seen_keys w) (file_flush (out_f w)) (stdin w) (clock w) (stdout w)).

Definition seen_add (k : string) : M unit :=
  fun w => (Ok tt, World ({[k]} ∪ seen_keys w) (out_f w) (stdin w) (clock w) (stdout w)).

Definition seen_mem (k : string) : M bool :=
  fun w => (Ok (bool_decide (k ∈ seen_keys w)), w).

Definition read_clock : M Z :=
  fun w => (Ok (clock w O),
            World (seen_keys w) (out_f w) (stdin w) (fun k => clock w (S k)) (stdout w)).

(** [sha1] *)
Definition sha1 (s : string) : string := hashlib_sha1_hexdigest s.

(** ** The block detector *)

Definition markers : list string :=
  ["подтвердите, что вы не робот"; "я не робот"; "captcha"; "robot"].

Definition detect_captcha_or_block (page : page_state) : bool :=
  let url := str_lower (page_url page) in
  if Str.contains "showcaptcha" url || Str.contains "captcha" url then true
  else
    match body_inner_text page with
    | Some txt =>
        let txt := str_lower txt in
        existsb (fun m => Str.contains m txt) markers
    | None => false
    end.

(** ** The recovery handler *)

(** The [while True] loop of the handler: one line of [stdin] per turn;
    [input] raises [EOFError] when the operator's input has ended. The
    result carries the lines left and the messages printed. *)
Fixpoint captcha_poll (inp : list (string * page_state))
  : result action * list (string * page_state) * list message :=
  match inp with
  | [] => (Raise EOFError, [], [])
  | (line, page) :: rest =>
      let cmd := str_lower (str_strip line) in
      if String.eqb cmd "q" then (Ok ActQuit, rest, [])
      else if String.eqb cmd "s" then (Ok ActSkip, rest, [])
      else if negb (detect_captcha_or_block page) then (Ok ActContinue, rest, [])
      else
        let '(r, rest', msgs) := captcha_poll rest in
        (r, rest', MsgStillCaptcha :: msgs)
  end.

Definition handle_captcha_interactive (url : string) (headful : bool) : M action :=
  if negb headful then
    print (MsgCaptchaHeadless url) ;;
    ret ActSkip
  else
    print MsgCaptchaBanner ;;
    fun w =>
      let '(r, rest, msgs) := captcha_poll (stdin w) in
      (r, World (seen_keys w) (out_f w) rest (clock w) (stdout w ++ msgs)).

(** ** [js_extract_new]: the script evaluated on the visible cards *)

(** [parseInt(s, 10)]; [None] stands for [NaN]. *)
Definition parseInt (s : string) : option Z :=
  let s := js_trim s in
  let '(neg, s) :=
    match s with
    | String "-" rest => (true, rest)
    | String "+" rest => (false, rest)
    | _ => (false, s)
    end in
  let ds := Str.take_while Str.is_digit s in
  if Str.is_empty ds then None
  else Some (if neg : bool then - Str.digits_value 0 ds else Str.digits_value 0 ds).

(** [x || d] on a string that may be [null] *)
Definition or_else (x : option string) (d : string) : string :=
  match x with
  | Some s => if Str.is_empty s then d else s
  | None => d
  end.

Definition isEllipsisEnd (s : string) : bool :=
  let t := js_trim s in
  Str.endswith "…" t || Str.endswith "..." t.

Definition is_user_id_char (c : ascii) : bool :=
  negb (Ascii.eqb c "/" || Ascii.eqb c "?" || Ascii.eqb c "#").

(** [href.match(/\/maps\/user\/([^/?#]+)/)]: group 1 of the leftmost match *)
Fixpoint match_user_id (href : string) : option string :=
  let here :=
    if String.prefix "/maps/user/" href then
      let g := Str.take_while is_user_id_char
                 (String.substring 11 (String.length href - 11) href) in
      if Str.is_empty g then None else Some g
    else None in
  match here, href with
  | Some g, _ => Some g
  | None, EmptyString => None
  | None, String _ rest => match_user_id rest
  end.

(** The body of the [for (const card of els)] loop for a card that is not
    skipped: expand, read, and read the raw fields. *)
Definition read_card (pos : Z) (c : card) : item :=
  let clicks := expand_clicks_first c in
  let text := text_first c in
  let '(clicks, text) :=
    if isEllipsisEnd text
    then ((clicks + expand_clicks_second c)%nat, text_second c)
    else (clicks, text) in
  let href := or_else (user_link_href c) "" in
  let author_id := match match_user_id href with Some g => g | None => ""%string end in
  let caption := js_trim (or_else (author_caption_text c) "") in
  let rating_raw := or_else (rating_content c) "" in
  let date_iso := or_else (date_content c) "" in
  Item pos author_id caption rating_raw date_iso text (Z.of_nat clicks) (isEllipsisEnd text).

(** The position of a card when the loop does not skip it:
    [if (!pos || pos <= maxPos) continue;] *)
Definition card_pos (maxPos : Z) (c : card) : option Z :=
  match parseInt (or_else (aria_posinset c) "0") with
  | None => None
  | Some pos => if (pos =? 0) || (pos <=? maxPos) then None else Some pos
  end.

Fixpoint js_extract_loop (maxPos : Z) (els : list card) (maxSeen : Z) : list item * Z :=
  match els with
  | [] => ([], maxSeen)
  | c :: rest =>
      match card_pos maxPos c with
      | None => js_extract_loop maxPos rest maxSeen
      | Some pos =>
          let maxSeen := if maxSeen <? pos then pos else maxSeen in
          let '(items, maxSeen') := js_extract_loop maxPos rest maxSeen in
          (read_card pos c :: items, maxSeen')
      end
  end.

(** Returns [{ items, maxSeen }]. *)
Definition js_extract_new (els : list card) (maxPos : Z) : list item * Z :=
  js_extract_loop maxPos els maxPos.

(** ** Helpers of the collection loop *)

Definition parse_caption (caption : string) : string * string * option Z :=
  let caption := str_strip caption in
  match CAPTION_RE_match caption with
  | None => (caption, ""%string, None)
  | Some (title, level) => (caption, str_strip title, Some level)
  end.

Definition to_float (x : string) : option pyfloat :=
  let x := str_strip x in
  if Str.is_empty x then None
  else py_float (Str.replace_comma_by_dot x).

(** [load_urls], on the lines of the file *)
Definition load_urls (lines : list string) : list string :=
  List.map str_strip
    (List.filter (fun l => negb (Str.is_empty (str_strip l))
                           && negb (Str.startswith "#" (str_strip l))) lines).

(** One line of the existing output file after [json.loads] and
    [obj.get("review_key")]: the line does not parse or has no mapping
    ([BadLine], the [except] branch), or the value of the key, [None] when
    it is absent or not a string of at least one character. *)
Inductive json_line := BadLine | GoodLine (k : option string).

Fixpoint load_seen_lines (lines : list json_line) (seen : gset string) : gset string :=
  match lines with
  | [] => seen
  | BadLine :: rest => load_seen_lines rest seen
  | GoodLine None :: rest => load_seen_lines rest seen
  | GoodLine (Some k) :: rest =>
      load_seen_lines rest (if Str.is_empty k then seen else {[k]} ∪ seen)
  end.

(** [load_seen_keys], on the lines of the output file ([main] has created
    the file before the call, so it exists). *)
Definition load_seen_keys (lines : list json_line) : gset string :=
  load_seen_lines lines ∅.

(** ** The collection loop *)

(** The arguments of [stream_scroll_collect] that its control flow or its
    output depend on. The selectors, the delay and the step ratio only
    reach the surface, and [debug] only adds prints. *)
Record params := Params {
  p_org_id : string;
  p_restaurant_name : string;
  p_source_url : string;
  max_rounds : Z;
  no_progress_limit : Z;
  max_reviews : Z;
  headful : bool;
}.

(** The local variables of [stream_scroll_collect]. *)
Record coll_state := CollState {
  max_pos_parsed : Z;
  no_progress : Z;
  total_written : Z;
  expanded_clicks_total : Z;
  still_ellipsis_new_cards : Z;
}.

Definition init_state : coll_state := CollState 0 0 0 0 0.

(** What the surface answers during one round: the page as the detector
    sees it at the top of the round, the outcome of
    [page.eval_on_selector_all] (the cards it runs the script on, or the
    exception it raises), and the outcome of the scroll and the wait that
    close the round. *)
Record round_env := RoundEnv {
  round_page : page_state;
  eval_outcome : result (list card);
  scroll_outcome : result unit;
}.

(** How a piece of the loop body ends: fall through to what follows,
    [break], or [return total_written]. *)
Inductive signal :=
| Proceed (st : coll_state)
| Break (st : coll_state)
| Return (st : coll_state).

Definition final_state (s : signal) : coll_state :=
  match s with Proceed st | Break st | Return st => st end.

(** The string that is hashed: [f"{org_id}|{author_id}|{date_iso}|{rating_raw}|{text}"] *)
Definition key_material (org author date_iso rating_raw text : string) : string :=
  org +:+ "|" +:+ author +:+ "|" +:+ date_iso +:+ "|" +:+ rating_raw +:+ "|" +:+ text.

Definition derive_key (org author date_iso rating_raw text : string) : string :=
  sha1 (key_material org author date_iso rating_raw text).

Definition date_ymd_of (date_iso : string) : string :=
  if Str.contains "T" date_iso then Str.before "T" date_iso else date_iso.

(** The [row] dictionary built for an item whose stripped text is [text]. *)
Definition make_row (p : params) (it : item) (text : string) (now : Z) : Row :=
  let parsed := parse_caption (it_caption it) in
  MkRow
    (derive_key (p_org_id p) (it_author_id it) (it_date_iso it) (it_rating_raw it) text)
    (p_org_id p) (p_restaurant_name p) (it_author_id it)
    parsed.1.1 parsed.1.2 parsed.2
    (it_date_iso it) (date_ymd_of (it_date_iso it))
    (it_rating_raw it) (to_float (it_rating_raw it))
    text (p_source_url p) now.

(** The body of [for it in items]. *)
Definition emit_item (p : params) (st : coll_state) (it : item) : M signal :=
  let text := str_strip (it_text it) in
  if Str.is_empty text then ret (Proceed st)
  else
    let st := CollState (max_pos_parsed st) (no_progress st) (total_written st)
                (expanded_clicks_total st + it_expandClicks it)
                (if it_stillEllipsis it then still_ellipsis_new_cards st + 1
                 else still_ellipsis_new_cards st) in
    let review_key :=
      derive_key (p_org_id p) (it_author_id it) (it_date_iso it) (it_rating_raw it) text in
    let* dup := seen_mem review_key in
    if dup : bool then ret (Proceed st)
    else
      let* now := read_clock in
      out_write (make_row p it text now) ;;
      let st := CollState (max_pos_parsed st) (no_progress st) (total_written st + 1)
                  (expanded_clicks_total st) (still_ellipsis_new_cards st) in
      seen_add review_key ;;
      if (0 <? max_reviews p) && (max_reviews p <=? total_written st) then
        out_flush ;;
        ret (Return st)
      else ret (Proceed st).

Fixpoint emit_items (p : params) (items : list item) (st : coll_state) : M signal :=
  match items with
  | [] => ret (Proceed st)
  | it :: rest =>
      let* s := emit_item p st it in
      match s with
      | Proceed st' => emit_items p rest st'
      | other => ret other
      end
  end.

(** [scroll_real_container] and [page.wait_for_timeout]: they act on the
    surface only; an exception they raise leaves the loop. *)
Definition scroll_and_wait (re : round_env) : M unit :=
  match scroll_outcome re with
  | Ok _ => ret tt
  | Raise e => raise e
  end.

Definition bump_no_progress (st : coll_state) : coll_state :=
  CollState (max_pos_parsed st) (no_progress st + 1) (total_written st)
    (expanded_clicks_total st) (still_ellipsis_new_cards st).

(** [progressed = max_seen > max_pos_parsed] and the update that follows *)
Definition advance_watermark (max_seen : Z) (st : coll_state) : coll_state :=
  if max_pos_parsed st <? max_seen then
    CollState max_seen 0 (total_written st)
      (expanded_clicks_total st) (still_ellipsis_new_cards st)
  else bump_no_progress st.

(** [if no_progress >= no_progress_limit: break], else scroll and loop *)
Definition decide_stop (p : params) (re : round_env) (st : coll_state) : M signal :=
  if no_progress_limit p <=? no_progress st then ret (Break st)
  else
    scroll_and_wait re ;;
    ret (Proceed st).

(** The top of a round: [true] when the round returns at once. *)
Definition blocked_exit (p : params) (re : round_env) : M bool :=
  if detect_captcha_or_block (round_page re) then
    let* act := handle_captcha_interactive (p_source_url p) (headful p) in
    match act with
    | ActQuit | ActSkip => ret true
    | ActContinue => ret false
    end
  else ret false.

(** The body of [for round_idx in range(max_rounds)]. The script always
    answers with an object that has [items] and [maxSeen], so the defaults
    of [res.get] and the branch for a result that is not a [dict] are never
    used. *)
Definition round_body (p : params) (re : round_env) (st : coll_state) : M signal :=
  let* leave := blocked_exit p re in
  if leave : bool then ret (Return st)
  else
    match eval_outcome re with
    | Raise PwTimeoutError => decide_stop p re (bump_no_progress st)
    | Raise e => raise e
    | Ok els =>
        let '(items, max_seen) := js_extract_new els (max_pos_parsed st) in
        let* s := emit_items p items st in
        match s with
        | Proceed st' =>
            out_flush ;;
            decide_stop p re (advance_watermark max_seen st')
        | other => ret other
        end
    end.

Fixpoint rounds_from (fuel : nat) (round_idx : nat) (p : params)
    (surface : nat → round_env) (st : coll_state) : M coll_state :=
  match fuel with
  | O => ret st
  | S fuel' =>
      let* s := round_body p (surface round_idx) st in
      match s with
      | Proceed st' => rounds_from fuel' (S round_idx) p surface st'
      | Break st' => ret st'
      | Return st' => ret st'
      end
  end.

(** The loop with its final local state. *)
Definition collect (p : params) (surface : nat → round_env) : M coll_state :=
  rounds_from (Z.to_nat (max_rounds p)) 0 p surface init_state.

Definition stream_scroll_collect (p : params) (surface : nat → round_env) : M Z :=
  let* st := collect p surface in
  ret (total_written st).

(** ** [main]: the sources, one after the other *)

(** The command-line arguments that reach the model. *)
Record args := Args {
  a_headful : bool;
  a_max_scroll_rounds : Z;
  a_no_progress_limit : Z;
  a_max_reviews : Z;
}.

(** What the surface answers while one address is processed: the outcome
    of [page.goto] and of the wait after it, the page as the detector sees
    it once the popups are dismissed, what [pick_first_existing] finds for
    the container and for the cards, what [extract_restaurant_name]
    returns, the outcome of [wait_reviews_ready], and the rounds. *)
Record source_env := SourceEnv {
  goto_outcome : result unit;
  nav_page : page_state;
  found_scroll_sel : option string;
  found_card_sel : option string;
  found_restaurant_name : string;
  ready_outcome : result unit;
  round_envs : nat → round_env;
}.

Definition surface_call (r : result unit) : M unit :=
  match r with
  | Ok _ => ret tt
  | Raise e => raise e
  end.

(** [not sel] *)
Definition falsy (sel : option string) : bool :=
  match sel with
  | Some s => Str.is_empty s
  | None => true
  end.

(** How the body of [for idx, url in enumerate(urls, start=1)] ends. *)
Inductive loop_ctl := NextUrl | BreakUrls.

(** From [pick_first_existing] to the end of the [try] block. *)
Definition scrape_place (a : args) (idx : Z) (url : string) (env : source_env) : M loop_ctl :=
  if falsy (found_scroll_sel env) || falsy (found_card_sel env) then
    print (MsgNotFound idx url) ;;
    ret NextUrl
  else
    let org := match ORG_ID_RE_search url with Some g => g | None => "unknown"%string end in
    surface_call (ready_outcome env) ;;
    let* n :=
      stream_scroll_collect
        (Params org (found_restaurant_name env) url (a_max_scroll_rounds a)
           (a_no_progress_limit a) (a_max_reviews a) (a_headful a))
        (round_envs env) in
    print (MsgWritten idx url n) ;;
    ret NextUrl.

(** The [try] block. *)
Definition visit (a : args) (idx : Z) (url : string) (env : source_env) : M loop_ctl :=
  surface_call (goto_outcome env) ;;
  if detect_captcha_or_block (nav_page env) then
    let* act := handle_captcha_interactive url (a_headful a) in
    match act with
    | ActQuit => print MsgQuit ;; ret BreakUrls
    | ActSkip => print (MsgSkipCaptcha idx url) ;; ret NextUrl
    | ActContinue => scrape_place a idx url env
    end
  else scrape_place a idx url env.

(** The [try] block with its three [except] clauses; nothing escapes it. *)
Definition visit_guarded (a : args) (idx : Z) (url : string) (env : source_env)
  : world → loop_ctl * world :=
  fun w =>
    match visit a idx url env w with
    | (Ok c, w') => (c, w')
    | (Raise PwTimeoutError, w') => (NextUrl, snd (print (MsgTimeout idx url) w'))
    | (Raise KeyboardInterrupt, w') => (BreakUrls, snd (print MsgInterrupted w'))
    | (Raise _, w') => (NextUrl, snd (print (MsgError idx url) w'))
    end.

(** The [for] loop over the addresses; [k] is the 0-based rank of the
    first address of [urls], and [surface k] what the surface answers for
    the address of rank [k]. *)
Fixpoint main_loop (a : args) (k : nat) (urls : list string)
    (surface : nat → source_env) (w : world) : world :=
  match urls with
  | [] => w
  | url :: rest =>
      match visit_guarded a (Z.of_nat k + 1) url (surface k) w with
      | (NextUrl, w') => main_loop a (S k) rest surface w'
      | (BreakUrls, w') => w'
      end
  end.

(** [main]: the lines of the address file, the lines of the output file as
    it is at start-up, what the operator will type, the clock, and the
    surface. The
    result is the state when the program ends; leaving the [with] block
    closes the file, which flushes it. *)
Definition main (a : args) (url_lines : list string) (existing : list json_line)
    (operator : list (string * page_state)) (time_time : nat → Z)
    (surface : nat → source_env) : world :=
  let urls := load_urls url_lines in
  let w0 := World (load_seen_keys existing) (OutFile [] []) operator time_time [] in
  let w1 := main_loop a 0 urls surface w0 in
  snd ((out_flush ;; print MsgDone) w1).

End Collector.

(** ** Titles, and the output read back *)

Section Titles.
Context `{RT : Runtime}.

(** [s.split(sep)[0]], for a separator of at least one character: what
    comes before the first occurrence of [sep], or all of [s]. *)
Fixpoint before_sub (sep s : string) : string :=
  if String.prefix sep s then EmptyString
  else
    match s with
    | EmptyString => EmptyString
    | String c rest => String c (before_sub sep rest)
    end.

Definition title_separators : list string := ["—"; "|"; "–"; "-"].

(** The [for sep in ...] loop of [cleanup_title], on the stripped title. *)
Fixpoint cleanup_from (t : string) (seps : list string) : string :=
  match seps with
  | [] => t
  | sep :: more =>
      if Str.contains "яндекс" (str_lower t) && Str.contains sep t then
        let left := str_strip (before_sub sep t) in
        if Str.is_empty left then cleanup_from t more else left
      else cleanup_from t more
  end.

Definition cleanup_title (title : string) : string :=
  cleanup_from (str_strip title) title_separators.

(** What [load_seen_keys] reads on the line that [out_f.write(json.dumps(row))]
    wrote: [json.loads] gives the mapping back, and its ["review_key"] is the
    key of the row. *)
Definition line_of_row (r : Row) : json_line := GoodLine (Some (review_key r)).

End Titles.

(** ** A runtime that computes

    One instance of [Runtime], used to run the model on concrete inputs.
    White space and digits are the ASCII ones, [lower] covers ASCII and the
    Cyrillic block, and [float] gives the decimal number the literal
    denotes, without rounding it to binary64. *)

Module Reference.

Definition is_py_space (c : ascii) : bool :=
  let n := Str.code c in
  ((9 <=? n) && (n <=? 13)) || ((28 <=? n) && (n <=? 32)).

Definition is_js_space (c : ascii) : bool :=
  let n := Str.code c in
  ((9 <=? n) && (n <=? 13)) || (n =? 32).

Definition strip (s : string) : string := Str.trim_with is_py_space s.

Definition trim (s : string) : string := Str.trim_with is_js_space s.

Definition chr (n : Z) : ascii := ascii_of_N (Z.to_N n).

(** Lower case: [A-Z], and U+0400..U+042F in their two-byte encoding. *)
Fixpoint lower (s : string) : string :=
  match s with
  | EmptyString => EmptyString
  | String c rest =>
      let n := Str.code c in
      if (65 <=? n) && (n <=? 90) then String (chr (n + 32)) (lower rest)
      else if n =? 208 then
        match rest with
        | String d rest' =>
            let m := Str.code d in
            if (128 <=? m) && (m <=? 143) then
              String (chr 209) (String (chr (m + 16)) (lower rest'))
            else if (144 <=? m) && (m <=? 159) then
              String c (String (chr (m + 32)) (lower rest'))
            else if (160 <=? m) && (m <=? 175) then
              String (chr 209) (String (chr (m - 32)) (lower rest'))
            else String c (String d (lower rest'))
        | EmptyString => String c EmptyString
        end
      else String c (lower rest)
  end.

(** [digit (["_"] digit)*]: the digits read, without the underscores, and
    what follows them. *)
Fixpoint digitpart (s : string) : string * string :=
  match s with
  | String c rest =>
      if Str.is_digit c then
        let go := fun tail => let '(ds, r) := digitpart tail in (String c ds, r) in
        match rest with
        | String "_" (String d _ as tail) =>
            if Str.is_digit d then go tail else (String c EmptyString, rest)
        | _ => go rest
        end
      else (EmptyString, s)
  | EmptyString => (EmptyString, EmptyString)
  end.

Definition sign_of (s : string) : bool * string :=
  match s with
  | String "-" rest => (true, rest)
  | String "+" rest => (false, rest)
  | _ => (false, s)
  end.

Definition exponent (s : string) : option Z :=
  match s with
  | EmptyString => Some 0
  | String c rest =>
      if Ascii.eqb c "e" || Ascii.eqb c "E" then
        let '(neg, rest) := sign_of rest in
        let '(ds, tail) := digitpart rest in
        if Str.is_empty ds || negb (Str.is_empty tail) then None
        else Some (if neg : bool then - Str.digits_value 0 ds else Str.digits_value 0 ds)
      else None
  end.

(** A float literal, read as the decimal number it denotes. *)
Definition float (x : string) : option pyfloat :=
  let '(neg, body) := sign_of (strip x) in
  let word := lower body in
  if String.eqb word "inf" || String.eqb word "infinity" then Some (Infinity neg)
  else if String.eqb word "nan" then Some NaN
  else
    let '(ip, rest) := digitpart body in
    let '(fp, rest) :=
      match rest with
      | String "." tail => digitpart tail
      | _ => (EmptyString, rest)
      end in
    if Str.is_empty ip && Str.is_empty fp then None
    else
      match exponent rest with
      | None => None
      | Some e =>
          Some (Finite neg (Str.digits_value 0 (ip +:+ fp))
                  (e - Z.of_nat (String.length fp)))
      end.

(** [\s+\d+\s*уров], ignoring case, at the head of [s]: the number read. *)
Definition level_suffix (s : string) : option Z :=
  let after_space := Str.drop_while is_py_space s in
  if Nat.eqb (String.length after_space) (String.length s) then None
  else
    let ds := Str.take_while Str.is_digit after_space in
    if Str.is_empty ds then None
    else
      let tail := Str.drop_while is_py_space (Str.drop_while Str.is_digit after_space) in
      if String.prefix "уров" (lower tail) then Some (Str.digits_value 0 ds) else None.

(** [^(.+?)...]: the shortest non-empty title, free of line feeds, that
    the suffix follows; [title] is the part already read, reversed. *)
Fixpoint caption_from (title : string) (s : string) : option (string * Z) :=
  let here :=
    if Str.is_empty title then None
    else match level_suffix s with
         | Some n => Some (String.rev title, n)
         | None => None
         end in
  match here, s with
  | Some r, _ => Some r
  | None, EmptyString => None
  | None, String c rest =>
      if Ascii.eqb c (chr 10) then None else caption_from (String c title) rest
  end.

Definition caption_match (s : string) : option (string * Z) :=
  caption_from EmptyString s.

(** [/org/[^/]+/(\d+)], leftmost match *)
Fixpoint org_id_search (s : string) : option string :=
  let here :=
    if String.prefix "/org/" s then
      let tail := String.substring 5 (String.length s - 5) s in
      let slug := Str.take_while (fun c => negb (Ascii.eqb c "/")) tail in
      match Str.drop_while (fun c => negb (Ascii.eqb c "/")) tail with
      | String _ after =>
          let ds := Str.take_while Str.is_digit after in
          if Str.is_empty slug || Str.is_empty ds then None else Some ds
      | EmptyString => None
      end
    else None in
  match here, s with
  | Some g, _ => Some g
  | None, EmptyString => None
  | None, String _ rest => org_id_search rest
  end.

(** A clock that ticks once per reading. *)
Definition clock (k : nat) : Z := Z.of_nat k + 1700000000.

End Reference.

#[export] Instance reference_runtime : Runtime := {|
  hashlib_sha1_hexdigest := SHA1.hexdigest;
  py_float := Reference.float;
  str_strip := Reference.strip;
  str_lower := Reference.lower;
  js_trim := Reference.trim;
  CAPTION_RE_match := Reference.caption_match;
  ORG_ID_RE_search := Reference.org_id_search;
|}.

(** * The vocabulary of the properties *)

Section Vocabulary.
Context `{RT : Runtime}.

(** The key of a row is the digest of its own five identity fields. *)
Definition key_ok (r : Row) : Prop :=
  review_key r
  = derive_key (org_id r) (author_id r) (date_iso r) (rating_raw r) (text r).

Definition keys (rs : list Row) : list string := List.map review_key rs.

(** [grows w w' new]: from [w] to [w'] the rows [new] were appended to the
    output, nothing that had reached the file was lost, the keys of [new]
    are pairwise distinct and were not in the seen-key set, which they have
    joined, and each of them is derived from its row. *)
Record grows (w w' : world) (new : list Row) : Prop := Grows {
  g_rows : rows_of w' = rows_of w ++ new;
  g_flushed : flushed (out_f w) `prefix_of` flushed (out_f w');
  g_seen : ∀ k, k ∈ seen_keys w' ↔ k ∈ seen_keys w ∨ k ∈ keys new;
  g_nodup : NoDup (keys new);
  g_fresh : ∀ k, k ∈ keys new → k ∉ seen_keys w;
  g_key : Forall key_ok new;
}.

(** The state once [r] is written and its key recorded. *)
Definition after_write (w : world) (r : Row) : world :=
  World ({[review_key r]} ∪ seen_keys w) (file_write r (out_f w))
    (stdin w) (fun k => clock w (S k)) (stdout w).

Definition after_flush (w : world) : world :=
  World (seen_keys w) (file_flush (out_f w)) (stdin w) (clock w) (stdout w).

(** All that has been written has reached the file. *)
Definition all_flushed (w : world) : Prop := pending (out_f w) = [].

(** What the item loop guarantees about the local state it hands over. *)
Definition emit_post (p : params) (st : coll_state) (s : signal)
    (new : list Row) (w' : world) : Prop :=
  max_pos_parsed (final_state s) = max_pos_parsed st
  ∧ no_progress (final_state s) = no_progress st
  ∧ total_written (final_state s) = total_written st + Z.of_nat (length new)
  ∧ match s with
    | Proceed st' =>
        0 < max_reviews p → total_written st < max_reviews p →
        total_written st' < max_reviews p
    | Return st' =>
        0 < max_reviews p ∧ max_reviews p ≤ total_written st'
        ∧ (total_written st < max_reviews p → total_written st' = max_reviews p)
        ∧ all_flushed w'
    | Break _ => False
    end.

(** What a round guarantees about the local state and the number of rows
    it wrote, by the way it ends. *)
Definition round_post (p : params) (st : coll_state) (r : result signal)
    (new : list Row) : Prop :=
  match r with
  | Ok s =>
      max_pos_parsed st ≤ max_pos_parsed (final_state s)
      ∧ total_written (final_state s) = total_written st + Z.of_nat (length new)
      ∧ (0 < max_reviews p → total_written st < max_reviews p →
         match s with
         | Return st' => total_written st' ≤ max_reviews p
         | Proceed st' | Break st' => total_written st' < max_reviews p
         end)
  | Raise e =>
      0 < max_reviews p → total_written st < max_reviews p →
      total_written st + Z.of_nat (length new) < max_reviews p
  end.

Definition rounds_post (p : params) (st : coll_state) (r : result coll_state)
    (new : list Row) : Prop :=
  match r with
  | Ok st' =>
      max_pos_parsed st ≤ max_pos_parsed st'
      ∧ total_written st' = total_written st + Z.of_nat (length new)
      ∧ (0 < max_reviews p → total_written st < max_reviews p →
         total_written st' ≤ max_reviews p)
  | Raise e =>
      0 < max_reviews p → total_written st < max_reviews p →
      total_written st + Z.of_nat (length new) < max_reviews p
  end.

(** [w'] comes after [w] in a run. *)
Definition extends (w w' : world) : Prop :=
  ∃ new, grows w w' new ∧ (all_flushed w → all_flushed w').

(** The position the script reads on a card; [None] for [NaN]. *)
Definition position (c : card) : option Z :=
  parseInt (or_else (aria_posinset c) "0").

(** The card is at or below the watermark. *)
Definition at_or_below (maxPos : Z) (c : card) : bool :=
  match position c with
  | Some pos => pos <=? maxPos
  | None => false
  end.

Definition above (maxPos : Z) (c : card) : bool := negb (at_or_below maxPos c).

(** The round as it would be with other cards on the page. *)
Definition with_cards (re : round_env) (els : list card) : round_env :=
  RoundEnv (round_page re) (Ok els) (scroll_outcome re).

(** The loop writes the item: its stripped text is not empty and its key
    is not in the seen-key set. *)
Definition writable (p : params) (it : item) (w : world) : Prop :=
  Str.is_empty (str_strip (it_text it)) = false
  ∧ derive_key (p_org_id p) (it_author_id it) (it_date_iso it) (it_rating_raw it)
      (str_strip (it_text it)) ∉ seen_keys w.

(** The row written for the item in state [w]. *)
Definition row_of (p : params) (it : item) (w : world) : Row :=
  make_row p it (str_strip (it_text it)) (clock w O).

(** The local state once the item is written. *)
Definition counted (st : coll_state) (it : item) : coll_state :=
  CollState (max_pos_parsed st) (no_progress st) (total_written st + 1)
    (expanded_clicks_total st + it_expandClicks it)
    (if it_stillEllipsis it then still_ellipsis_new_cards st + 1
     else still_ellipsis_new_cards st).

Definition cap_reached (p : params) (st : coll_state) : bool :=
  (0 <? max_reviews p) && (max_reviews p <=? total_written st).

(** The address matches the challenge path. *)
Definition challenge_path (page : page_state) : bool :=
  Str.contains "showcaptcha" (str_lower (page_url page))
  || Str.contains "captcha" (str_lower (page_url page)).

(** How a round that reaches its end leaves the watermark and the stall
    counter: a time-out of the extraction counts as no progress; otherwise
    the greatest position seen decides. *)
Definition counters_updated (re : round_env) (st st' : coll_state) : Prop :=
  match eval_outcome re with
  | Ok els =>
      let max_seen := (js_extract_new els (max_pos_parsed st)).2 in
      if max_pos_parsed st <? max_seen
      then max_pos_parsed st' = max_seen ∧ no_progress st' = 0
      else max_pos_parsed st' = max_pos_parsed st
           ∧ no_progress st' = no_progress st + 1
  | Raise _ =>
      max_pos_parsed st' = max_pos_parsed st
      ∧ no_progress st' = no_progress st + 1
  end.


(** The state once the messages [ms] are printed. *)
Definition say (ms : list message) (w : world) : world :=
  World (seen_keys w) (out_f w) (stdin w) (clock w) (stdout w ++ ms).

(** The claim C8 as it is written, for one address of a run: in headless
    mode, if the detector has reported a block while the address was
    processed (the handler has printed its headless message for it), no
    record of the output comes from that address. *)
Definition blocked_source_emits_nothing (a : args) (url_lines : list string)
    (existing : list json_line) (operator : list (string * page_state))
    (time_time : nat → Z) (surface : nat → source_env) (url : string) : Prop :=
  a_headful a = false →
  MsgCaptchaHeadless url ∈ stdout (main a url_lines existing operator time_time surface) →
  ∀ r, r ∈ rows_of (main a url_lines existing operator time_time surface) →
       source_url r ≠ url.

(** The claim C10 as it is written: with [max_reviews <= 0] the loop is
    left by the stall limit ([break]) or when the rounds of the budget are
    over, that is, no round ends by a [return]. *)
Definition only_stall_or_budget (p : params) : Prop :=
  max_reviews p ≤ 0 →
  ∀ (re : round_env) (st st' : coll_state) (w w' : world),
    round_body p re st w ≠ (Ok (Return st'), w').

End Vocabulary.

(** * More vocabulary *)

Section Traces.
Context `{RT : Runtime}.

(** What the operator's line asks for, once stripped and lower-cased. *)
Definition command (line : string) : string := str_lower (str_strip line).

(** What one turn of the handler's loop decides on a typed line and the
    page as it is then; [None] when the loop goes on to the next line. *)
Definition decision (turn : string * page_state) : option action :=
  if String.eqb (command turn.1) "q" then Some ActQuit
  else if String.eqb (command turn.1) "s" then Some ActSkip
  else if negb (detect_captcha_or_block turn.2) then Some ActContinue
  else None.

(** The messages of the recovery handler. *)
Definition is_captcha_msg (m : message) : Prop :=
  match m with
  | MsgCaptchaHeadless _ | MsgCaptchaBanner | MsgStillCaptcha => True
  | _ => False
  end.

(** [org_id] as [main] derives it from the address. *)
Definition org_of_url (url : string) : string :=
  match ORG_ID_RE_search url with
  | Some g => g
  | None => "unknown"%string
  end.

(** The local state once an item with text is looked at but not written. *)
Definition noted (st : coll_state) (it : item) : coll_state :=
  CollState (max_pos_parsed st) (no_progress st) (total_written st)
    (expanded_clicks_total st + it_expandClicks it)
    (if it_stillEllipsis it then still_ellipsis_new_cards st + 1
     else still_ellipsis_new_cards st).

(** The row was built by the loop called with [p], from an item whose
    stripped text is not empty. *)
Definition made_by (p : params) (r : Row) : Prop :=
  ∃ it now,
    r = make_row p it (str_strip (it_text it)) now
    ∧ Str.is_empty (str_strip (it_text it)) = false.

(** What every record of a run over [urls] satisfies. *)
Definition row_wellformed (urls : list string) (r : Row) : Prop :=
  Str.is_empty (text r) = false
  ∧ In (source_url r) urls
  ∧ org_id r = org_of_url (source_url r)
  ∧ date r = date_ymd_of (date_iso r)
  ∧ rating r = to_float (rating_raw r)
  ∧ review_key r
    = sha1 (key_material (org_id r) (author_id r) (date_iso r) (rating_raw r) (text r)).

(** [advances hf P Q w w' new]: from [w] to [w'] the rows [new], each
    satisfying [P], were appended; the clock was read once per row, in
    order, and each row carries its reading; the terminal was read from the
    front only, and not at all when [hf] is false; and the messages printed
    satisfy [Q]. *)
Record advances (hf : bool) (P : Row → Prop) (Q : message → Prop)
    (w w' : world) (new : list Row) : Prop := Advances {
  a_rows : rows_of w' = rows_of w ++ new;
  a_rows_ok : Forall P new;
  a_clock : ∀ k, clock w' k = clock w (length new + k)%nat;
  a_times : List.map scraped_at_unix new = List.map (clock w) (seq 0 (length new));
  a_stdin : ∃ used, stdin w = used ++ stdin w';
  a_headless : hf = false → stdin w' = stdin w;
  a_stdout : ∃ said, stdout w' = stdout w ++ said ∧ Forall Q said;
}.


(** A round in which the extraction times out and nothing else happens. *)
Definition timeout_round (re : round_env) : Prop :=
  detect_captcha_or_block (round_page re) = false
  ∧ eval_outcome re = Raise PwTimeoutError
  ∧ scroll_outcome re = Ok tt.

(** Two local states with the same watermark and the same stall counter. *)
Definition same_progress (st1 st2 : coll_state) : Prop :=
  max_pos_parsed st1 = max_pos_parsed st2 ∧ no_progress st1 = no_progress st2.

(** A piece of a second run ends as the same piece of the first run did:
    by the same statement, with the same progress, and with nothing
    written since [st2]. *)
Definition rerun_signal (st2 : coll_state) (s1 s2 : signal) : Prop :=
  match s1, s2 with
  | Proceed a, Proceed b | Break a, Break b | Return a, Return b =>
      same_progress a b ∧ total_written b = total_written st2
  | _, _ => False
  end.

Definition rerun_result {A : Type} (rel : A → A → Prop) (r1 r2 : result A) : Prop :=
  match r1, r2 with
  | Ok a, Ok b => rel a b
  | Raise e1, Raise e2 => e1 = e2
  | _, _ => False
  end.

End Traces.

(** * Concrete runs *)

Module Scenario.

Definition cafe_url : string := "https://yandex.ru/maps/org/cafe/123/reviews/".
Definition cafe_url_renamed : string := "https://yandex.ru/maps/org/cafe-na-uglu/123/".
Definition bar_url : string := "https://yandex.ru/maps/org/bar/456/reviews/".

Definition reviews_page (url : string) : page_state := Page url (Some "Отзывы о месте").
Definition unreadable_page (url : string) : page_state := Page url None.
Definition challenge_page : page_state :=
  Page "https://yandex.ru/showcaptcha?retpath=maps" (Some "Подтвердите, что вы не робот").

Definition review_card (pos text rating : string) : card :=
  Card (Some pos) 0 text 0 text (Some "/maps/user/abc123/") (Some "Знаток города 5 уровня")
    (Some rating) (Some "2024-01-02T10:00:00Z").

Definition three_cards : list card :=
  [review_card "1" "Great food" "5"; review_card "2" "Too loud" "x";
   review_card "3" "Fine" "4,5"].

(** The same three cards at every round: the first round reads them, the
    next ones see nothing new. *)
Definition steady_rounds (url : string) (k : nat) : round_env :=
  RoundEnv (reviews_page url) (Ok three_cards) (Ok tt).

(** One round of cards, then the challenge page. *)
Definition blocked_after_one (url : string) (k : nat) : round_env :=
  match k with
  | O => RoundEnv (reviews_page url) (Ok three_cards) (Ok tt)
  | _ => RoundEnv challenge_page (Ok []) (Ok tt)
  end.

(** The challenge page from the first round on. *)
Definition blocked_rounds (k : nat) : round_env :=
  RoundEnv challenge_page (Ok three_cards) (Ok tt).

Definition place (name : string) (nav : page_state) (rounds : nat → round_env)
  : source_env :=
  SourceEnv (Ok tt) nav (Some "div.business-reviews-card-view__reviews-container")
    (Some "div.business-reviews-card-view__review[role='listitem']") name (Ok tt) rounds.

Definition fresh_world : world := World ∅ (OutFile [] []) [] Reference.clock [].

Definition headless : args := Args false 10 2 0.
Definition headful_args : args := Args true 10 2 0.

Definition unlimited : params := Params "123" "Cafe" cafe_url 10 2 0 false.
Definition capped : params := Params "123" "Cafe" cafe_url 10 2 2 false.

(** Two runs of different days, on different addresses of the same place. *)
Definition run_a : world :=
  main headless [cafe_url] [] [] Reference.clock
    (fun _ => place "Cafe" (reviews_page cafe_url) (steady_rounds cafe_url)).

Definition run_b : world :=
  main (Args true 5 1 1) ["# places"; cafe_url_renamed] [BadLine; GoodLine (Some "00ff")] []
    (fun k => Z.of_nat k + 1800000000)
    (fun _ => place "Cafe na uglu" (reviews_page cafe_url_renamed)
                (steady_rounds cafe_url_renamed)).

Definition no_row : Row := MkRow "" "" "" "" "" "" None "" "" "" None "" "" 0.

Definition row_a : Row := List.nth 0 (rows_of run_a) no_row.
Definition row_b : Row := List.nth 0 (rows_of run_b) no_row.

(** A headless run on one address whose page turns into the challenge
    page after the first round. *)
Definition run_blocked_late : world :=
  main headless [cafe_url] [] [] Reference.clock
    (fun _ => place "Cafe" (reviews_page cafe_url) (blocked_after_one cafe_url)).

(** A headful run on two addresses: the first one shows the challenge page
    at the top of its first round and the operator types [q]; the second
    one is a page of reviews. *)
Definition quit_surface (k : nat) : source_env :=
  match k with
  | O => place "Cafe" (reviews_page cafe_url) blocked_rounds
  | _ => place "Bar" (reviews_page bar_url) (steady_rounds bar_url)
  end.

Definition run_quit_mid_collection : world :=
  main headful_args [cafe_url; bar_url] [] [("q", challenge_page)] Reference.clock
    quit_surface.

(** The same two addresses, the first one blocked right after navigation. *)
Definition quit_nav_surface (k : nat) : source_env :=
  match k with
  | O => place "Cafe" challenge_page (steady_rounds cafe_url)
  | _ => place "Bar" (reviews_page bar_url) (steady_rounds bar_url)
  end.

Definition run_quit_at_navigation : world :=
  main headful_args [cafe_url; bar_url] [] [("q", challenge_page)] Reference.clock
    quit_nav_surface.

(** Where [steady_rounds] leaves the loop. *)
Definition steady_end : coll_state * world :=
  match rounds_from 10 0 unlimited (steady_rounds cafe_url) init_state fresh_world with
  | (Ok st, w) => (st, w)
  | (Raise _, w) => (init_state, w)
  end.

(** One record written so far. *)
Definition one_written : coll_state := CollState 1 0 1 0 0.

Definition fine_item : item :=
  Item 3 "abc123" "" "4,5" "2024-01-02T10:00:00Z" "Fine" 0 false.

Definition loud_item : item :=
  Item 2 "abc123" "Знаток города 5 уровня" "x" "2024-01-02T10:00:00Z" "Too loud" 0 false.

End Scenario.

(** ** More concrete inputs *)

Module Cases.

(** Rounds in which the extraction times out. *)
Definition slow_rounds (k : nat) : round_env :=
  RoundEnv (Scenario.reviews_page Scenario.cafe_url) (Raise PwTimeoutError) (Ok tt).

(** No round at all, and no patience at all. *)
Definition no_budget : params := Params "123" "Cafe" Scenario.cafe_url 0 2 0 false.
Definition no_patience : params := Params "123" "Cafe" Scenario.cafe_url 10 0 0 false.

(** Where the first round of [Scenario.steady_rounds] leaves the loop. *)
Definition first_round : coll_state * world :=
  match round_body Scenario.unlimited (Scenario.steady_rounds Scenario.cafe_url 0)
          init_state Scenario.fresh_world with
  | (Ok s, w) => (final_state s, w)
  | (Raise _, w) => (init_state, w)
  end.

Definition cafe : source_env :=
  Scenario.place "Cafe" (Scenario.reviews_page Scenario.cafe_url)
    (Scenario.steady_rounds Scenario.cafe_url).

Definition cafe_blocked_late : source_env :=
  Scenario.place "Cafe" (Scenario.reviews_page Scenario.cafe_url)
    (Scenario.blocked_after_one Scenario.cafe_url).

(** The operator presses Enter while the page is still blocked, then types
    a word once it is clear; a third line is ready. *)
Definition patient_operator : list (string * page_state) :=
  [("", Scenario.challenge_page);
   (" ok ", Scenario.reviews_page Scenario.cafe_url);
   ("q", Scenario.challenge_page)].

Definition at_terminal : world :=
  World ∅ (OutFile [] []) patient_operator Reference.clock [].

(** The visit of one address, from a fresh state. *)
Definition cafe_visit : loop_ctl * world :=
  visit_guarded Scenario.headless 1 Scenario.cafe_url cafe Scenario.fresh_world.

Definition portal_title : string := "  Кафе на углу — Яндекс Карты ".

End Cases.

(** * Properties *)

(** ** The reference runtime on known inputs *)

Example sha1_empty :
  SHA1.hexdigest "" = "da39a3ee5e6b4b0d3255bfef95601890afd80709".
Proof. vm_compute. reflexivity. Qed.

Example sha1_abc :
  SHA1.hexdigest "abc" = "a9993e364706816aba3e25717850c26c9cd0d89d".
Proof. vm_compute. reflexivity. Qed.

Example sha1_fox :
  SHA1.hexdigest "The quick brown fox jumps over the lazy dog"
  = "2fd4e1c67a2d28fced849ee1bb76e7391b93eb12".
Proof. vm_compute. reflexivity. Qed.

Example sha1_two_blocks :
  SHA1.hexdigest "abcdbcdecdefdefgefghfghighijhijkijkljklmklmnlmnomnopnopq"
  = "84983e441c3bd26ebaae4aa1f95129e5e54670f1".
Proof. vm_compute. reflexivity. Qed.

Example ref_strip : Reference.strip "  Great food  " = "Great food".
Proof. vm_compute. reflexivity. Qed.
Example ref_lower : Reference.lower "Подтвердите, Что ВЫ не Робот CAPTCHA" = "подтвердите, что вы не робот captcha".
Proof. vm_compute. reflexivity. Qed.
Example ref_float1 : Reference.float " 4,5 " = None.
Proof. vm_compute. reflexivity. Qed.
Example ref_float2 : Reference.float "4.5" = Some (Finite false 45 (-1)).
Proof. vm_compute. reflexivity. Qed.
Example ref_float3 : Reference.float "-1_0.25e3" = Some (Finite true 1025 1).
Proof. vm_compute. reflexivity. Qed.
Example ref_float4 : Reference.float "abc" = None /\ Reference.float "5." = Some (Finite false 5 0) /\ Reference.float ".5" = Some (Finite false 5 (-1)) /\ Reference.float "." = None /\ Reference.float "1__0" = None /\ Reference.float "Infinity" = Some (Infinity false).
Proof. vm_compute. repeat split. Qed.
Example ref_caption : Reference.caption_match "Знаток города 12 уровня" = Some ("Знаток города", 12).
Proof. vm_compute. reflexivity. Qed.
Example ref_org : Reference.org_id_search "https://yandex.ru/maps/org/some_cafe/1234567/reviews/" = Some "1234567".
Proof. vm_compute. reflexivity. Qed.
Example ref_to_float : to_float "4,5" = Some (Finite false 45 (-1)) /\ to_float "  " = None /\ to_float "five" = None.
Proof. vm_compute. repeat split. Qed.
Example ref_detect : detect_captcha_or_block (Page "https://yandex.ru/showcaptcha?x" None) = true
  /\ detect_captcha_or_block (Page "https://yandex.ru/maps/org/a/1/" None) = false
  /\ detect_captcha_or_block (Page "https://yandex.ru/maps/org/a/1/" (Some "Я не робот")) = true
  /\ detect_captcha_or_block (Page "https://yandex.ru/maps/org/a/1/" (Some "Отзывы")) = false.
Proof. vm_compute. repeat split. Qed.

Section Properties.
Context `{RT : Runtime}.

(** ** What a piece of the program may do to the shared state *)

Lemma grows_same (w w' : world) :
  seen_keys w' = seen_keys w → out_f w' = out_f w → grows w w' [].
Proof.
  intros Hs Ho. split; unfold rows_of, keys; rewrite ?Ho, ?Hs, ?app_nil_r; simpl; try done.
  - intros k. rewrite elem_of_nil. tauto.
  - constructor.
  - intros k Hk. by apply elem_of_nil in Hk.
Qed.

Lemma grows_refl (w : world) : grows w w [].
Proof. by apply grows_same. Qed.

Lemma grows_flushing (w w' : world) :
  seen_keys w' = seen_keys w → out_f w' = file_flush (out_f w) → grows w w' [].
Proof.
  intros Hs Ho. split; unfold rows_of, keys; rewrite ?Ho, ?Hs; simpl.
  - unfold written_rows. simpl. by rewrite !app_nil_r.
  - by apply prefix_app_r.
  - intros k. rewrite elem_of_nil. tauto.
  - constructor.
  - intros k Hk. by apply elem_of_nil in Hk.
  - constructor.
Qed.

Lemma grows_writing (w w' : world) (r : Row) :
  seen_keys w' = {[review_key r]} ∪ seen_keys w →
  out_f w' = file_write r (out_f w) →
  review_key r ∉ seen_keys w →
  key_ok r →
  grows w w' [r].
Proof.
  intros Hs Ho Hfresh Hk. split; unfold rows_of, keys; rewrite ?Ho, ?Hs; simpl.
  - unfold written_rows. simpl. by rewrite app_assoc.
  - done.
  - intros k. rewrite elem_of_union, elem_of_singleton, list_elem_of_singleton. tauto.
  - apply NoDup_singleton.
  - intros k Hin. apply list_elem_of_singleton in Hin. by subst.
  - by constructor.
Qed.

Lemma grows_trans (w w1 w2 : world) (n1 n2 : list Row) :
  grows w w1 n1 → grows w1 w2 n2 → grows w w2 (n1 ++ n2).
Proof.
  intros [R1 F1 S1 D1 Fr1 K1] [R2 F2 S2 D2 Fr2 K2]. split.
  - by rewrite R2, R1, app_assoc.
  - by etrans.
  - intros k. rewrite S2, S1. unfold keys. rewrite map_app, elem_of_app. tauto.
  - unfold keys. rewrite map_app. apply NoDup_app. split_and!; try done.
    intros k Hk1 Hk2. apply (Fr2 k Hk2). apply S1. by right.
  - intros k. unfold keys. rewrite map_app, elem_of_app. intros [Hk|Hk].
    + by apply Fr1.
    + intros Hin. apply (Fr2 k Hk). apply S1. by left.
  - by apply Forall_app.
Qed.

Lemma grows_then_flush (w w1 w2 : world) (new : list Row) :
  grows w w1 new →
  seen_keys w2 = seen_keys w1 → out_f w2 = file_flush (out_f w1) →
  grows w w2 new.
Proof.
  intros G Hs Ho. rewrite <- (app_nil_r new).
  eapply grows_trans; [exact G|]. by apply grows_flushing.
Qed.

Lemma grows_then_same (w w1 w2 : world) (new : list Row) :
  grows w w1 new →
  seen_keys w2 = seen_keys w1 → out_f w2 = out_f w1 →
  grows w w2 new.
Proof.
  intros G Hs Ho. rewrite <- (app_nil_r new).
  eapply grows_trans; [exact G|]. by apply grows_same.
Qed.

(** ** One item *)

Ltac solve_post := split_and!; simpl; try done; try lia.

Lemma key_ok_make_row (p : params) (it : item) (txt : string) (now : Z) :
  key_ok (make_row p it txt now).
Proof. reflexivity. Qed.

Lemma review_key_make_row (p : params) (it : item) (txt : string) (now : Z) :
  review_key (make_row p it txt now)
  = derive_key (p_org_id p) (it_author_id it) (it_date_iso it) (it_rating_raw it) txt.
Proof. reflexivity. Qed.

Lemma emit_item_spec (p : params) (st : coll_state) (it : item) (w : world) :
  ∃ s w' new,
    emit_item p st it w = (Ok s, w')
    ∧ grows w w' new
    ∧ stdin w' = stdin w ∧ stdout w' = stdout w
    ∧ emit_post p st s new w'.
Proof.
  unfold emit_item.
  destruct (Str.is_empty (str_strip (it_text it))) eqn:Etext.
  { exists (Proceed st), w, []. split; [reflexivity|].
    unfold emit_post. solve_post. apply grows_refl. }
  unfold bind, seen_mem. simpl.
  case_bool_decide as Hseen.
  { eexists (Proceed _), w, []. split; [reflexivity|].
    unfold emit_post. solve_post. apply grows_refl. }
  unfold read_clock, out_write, seen_add, out_flush, ret; simpl.
  set (r := make_row p it (str_strip (it_text it)) (clock w 0)).
  assert (grows w (after_write w r) [r]) as Gw.
  { by apply grows_writing. }
  destruct ((0 <? max_reviews p) && (max_reviews p <=? total_written st + 1)) eqn:Ecap.
  - eexists (Return _), _, [r]. split; [reflexivity|].
    apply andb_true_iff in Ecap as [E1 E2].
    apply Z.ltb_lt in E1. apply Z.leb_le in E2.
    unfold emit_post, all_flushed. solve_post.
    by eapply grows_then_flush; [exact Gw|..].
  - eexists (Proceed _), _, [r]. split; [reflexivity|].
    unfold emit_post. solve_post.
Qed.

(** ** The item loop *)

Lemma emit_post_trans (p : params) (st st1 : coll_state) (s : signal)
    (n1 n2 : list Row) (w1 w2 : world) :
  emit_post p st (Proceed st1) n1 w1 →
  emit_post p st1 s n2 w2 →
  emit_post p st s (n1 ++ n2) w2.
Proof.
  unfold emit_post. simpl. intros (M1 & N1 & T1 & C1) (M2 & N2 & T2 & C2).
  rewrite length_app, Nat2Z.inj_add.
  split_and!; try congruence; try lia.
  destruct s as [st'|st'|st']; simpl in *; try done.
  - intros. apply C2; [done|]. by apply C1.
  - destruct C2 as (A & B & C & D). split_and!; try done.
    intros. apply C. by apply C1.
Qed.

Lemma emit_items_spec (p : params) (items : list item) (st : coll_state) (w : world) :
  ∃ s w' new,
    emit_items p items st w = (Ok s, w')
    ∧ grows w w' new
    ∧ stdin w' = stdin w ∧ stdout w' = stdout w
    ∧ emit_post p st s new w'.
Proof.
  revert st w. induction items as [|it rest IH]; intros st w.
  { exists (Proceed st), w, []. split; [reflexivity|].
    unfold emit_post. solve_post. apply grows_refl. }
  destruct (emit_item_spec p st it w) as (s1 & w1 & n1 & E1 & G1 & I1 & O1 & P1).
  simpl. unfold bind at 1. rewrite E1.
  destruct s1 as [st1|st1|st1].
  - destruct (IH st1 w1) as (s & w' & n2 & E2 & G2 & I2 & O2 & P2).
    exists s, w', (n1 ++ n2). split_and!; try congruence.
    + by eapply grows_trans.
    + by eapply emit_post_trans.
  - by destruct P1 as (_ & _ & _ & []).
  - by exists (Return st1), w1, n1.
Qed.

(** The item loop never leaves by [break]. *)
Lemma emit_items_no_break (p : params) (items : list item) (st st' : coll_state)
    (w w' : world) :
  emit_items p items st w ≠ (Ok (Break st'), w').
Proof.
  destruct (emit_items_spec p items st w) as (s & w1 & n & E & _ & _ & _ & P).
  rewrite E. intros [= -> ->]. by destruct P as (_ & _ & _ & []).
Qed.

(** ** The recovery handler and the top of a round *)

Lemma captcha_poll_suffix (inp : list (string * page_state)) :
  ∃ used, inp = used ++ (captcha_poll inp).1.2.
Proof.
  induction inp as [|[line page] rest [used IH]]; [by exists []|].
  simpl.
  destruct (String.eqb (str_lower (str_strip line)) "q"); [by exists [(line, page)]|].
  destruct (String.eqb (str_lower (str_strip line)) "s"); [by exists [(line, page)]|].
  destruct (negb (detect_captcha_or_block page)); [by exists [(line, page)]|].
  destruct (captcha_poll rest) as [[r rest'] msgs]. simpl in *.
  exists ((line, page) :: used). by rewrite IH at 1.
Qed.

Lemma handle_captcha_frame (url : string) (hf : bool) (w w' : world) (r : result action) :
  handle_captcha_interactive url hf w = (r, w') →
  seen_keys w' = seen_keys w ∧ out_f w' = out_f w ∧ clock w' = clock w.
Proof.
  unfold handle_captcha_interactive. destruct hf; simpl.
  - unfold bind, print. simpl.
    destruct (captcha_poll (stdin w)) as [[r0 rest] msgs]. by intros [= <- <-].
  - unfold bind, print, ret. simpl. by intros [= <- <-].
Qed.

(** In headless mode the handler answers ["skip"] at once; it reads
    nothing from the terminal. *)
Lemma handle_captcha_headless (url : string) (w : world) :
  handle_captcha_interactive url false w
  = (Ok ActSkip,
     World (seen_keys w) (out_f w) (stdin w) (clock w)
       (stdout w ++ [MsgCaptchaHeadless url])).
Proof. reflexivity. Qed.

Lemma blocked_exit_frame (p : params) (re : round_env) (w w' : world) (r : result bool) :
  blocked_exit p re w = (r, w') →
  seen_keys w' = seen_keys w ∧ out_f w' = out_f w ∧ clock w' = clock w.
Proof.
  unfold blocked_exit. destruct (detect_captcha_or_block (round_page re)).
  - unfold bind.
    destruct (handle_captcha_interactive (p_source_url p) (headful p) w)
      as [[act|e] w1] eqn:E.
    + apply handle_captcha_frame in E.
      destruct act; unfold ret; by intros [= <- <-].
    + apply handle_captcha_frame in E. by intros [= <- <-].
  - unfold ret. by intros [= <- <-].
Qed.

Lemma decide_stop_cases (p : params) (re : round_env) (st : coll_state) (w : world) :
  (no_progress_limit p ≤ no_progress st
     ∧ decide_stop p re st w = (Ok (Break st), w))
  ∨ (no_progress st < no_progress_limit p
     ∧ ((scroll_outcome re = Ok tt ∧ decide_stop p re st w = (Ok (Proceed st), w))
        ∨ ∃ e, scroll_outcome re = Raise e ∧ decide_stop p re st w = (Raise e, w))).
Proof.
  unfold decide_stop.
  destruct (no_progress_limit p <=? no_progress st) eqn:E.
  - left. split; [lia|reflexivity].
  - right. split; [lia|]. unfold bind, scroll_and_wait.
    destruct (scroll_outcome re) as [[]|e]; [left|right; exists e]; by split.
Qed.

(** ** One round *)

Lemma advance_watermark_fields (max_seen : Z) (st : coll_state) :
  max_pos_parsed st ≤ max_pos_parsed (advance_watermark max_seen st)
  ∧ total_written (advance_watermark max_seen st) = total_written st
  ∧ (if max_pos_parsed st <? max_seen
     then max_pos_parsed (advance_watermark max_seen st) = max_seen
          ∧ no_progress (advance_watermark max_seen st) = 0
     else max_pos_parsed (advance_watermark max_seen st) = max_pos_parsed st
          ∧ no_progress (advance_watermark max_seen st) = no_progress st + 1).
Proof.
  unfold advance_watermark.
  destruct (max_pos_parsed st <? max_seen) eqn:E; simpl; split_and!; try done; lia.
Qed.

Lemma round_body_spec (p : params) (re : round_env) (st : coll_state) (w : world) :
  ∃ r w' new,
    round_body p re st w = (r, w')
    ∧ grows w w' new
    ∧ (all_flushed w → all_flushed w')
    ∧ round_post p st r new.
Proof.
  unfold round_body, bind.
  destruct (blocked_exit p re w) as [[leave|e] w0] eqn:EB;
    apply blocked_exit_frame in EB as (Hs & Ho & _).
  2:{ exists (Raise e), w0, []. split; [done|]. split; [by apply grows_same|].
      split; [unfold all_flushed; by rewrite Ho|]. simpl. lia. }
  assert (grows w w0 []) as G0 by by apply grows_same.
  assert (all_flushed w → all_flushed w0) as F0 by (unfold all_flushed; by rewrite Ho).
  destruct leave.
  { exists (Ok (Return st)), w0, []. unfold ret. do 3 (split; [done|]). simpl. lia. }
  destruct (eval_outcome re) as [els|e].
  - destruct (js_extract_new els (max_pos_parsed st)) as [items max_seen].
    destruct (emit_items_spec p items st w0) as (s & w1 & n & E & G1 & _ & _ & P).
    rewrite E. destruct P as (PM & PN & PT & PC).
    assert (grows w w1 n) as G by apply (grows_trans _ _ _ _ _ G0 G1).
    destruct s as [st1|st1|st1]; simpl in *.
    + set (st2 := advance_watermark max_seen st1).
      set (w2 := after_flush w1).
      destruct (advance_watermark_fields max_seen st1) as (AM & AT & _).
      assert (grows w w2 n) as G2 by by eapply grows_then_flush.
      change (out_flush w1) with (Ok tt, w2). cbv beta iota.
      destruct (decide_stop_cases p re st2 w2) as [[_ D]|[_ [[_ D]|[e [_ D]]]]];
        unfold w2 at 1, after_flush in D; rewrite D.
      * exists (Ok (Break st2)), w2, n. do 3 (split; [done|]).
        simpl. fold st2 in AM, AT. split_and!; try lia.
      * exists (Ok (Proceed st2)), w2, n. do 3 (split; [done|]).
        simpl. fold st2 in AM, AT. split_and!; try lia.
      * exists (Raise e), w2, n. do 3 (split; [done|]). simpl. lia.
    + done.
    + destruct PC as (C1 & C2 & C3 & C4).
      exists (Ok (Return st1)), w1, n. unfold ret. do 3 (split; [done|]).
      simpl. split_and!; try lia.
  - destruct e.
    2-4: (eexists (Raise _), w0, []; split; [reflexivity|];
          do 2 (split; [done|]); simpl; lia).
    destruct (decide_stop_cases p re (bump_no_progress st) w0)
      as [[_ D]|[_ [[_ D]|[e [_ D]]]]]; rewrite D.
    + exists (Ok (Break (bump_no_progress st))), w0, []. do 3 (split; [done|]). simpl. lia.
    + exists (Ok (Proceed (bump_no_progress st))), w0, []. do 3 (split; [done|]). simpl. lia.
    + exists (Raise e), w0, []. do 3 (split; [done|]). simpl. lia.
Qed.

(** ** The round loop *)

Lemma rounds_from_spec (fuel idx : nat) (p : params) (surface : nat → round_env)
    (st : coll_state) (w : world) :
  ∃ r w' new,
    rounds_from fuel idx p surface st w = (r, w')
    ∧ grows w w' new
    ∧ (all_flushed w → all_flushed w')
    ∧ rounds_post p st r new.
Proof.
  revert idx st w. induction fuel as [|fuel IH]; intros idx st w.
  { exists (Ok st), w, []. split; [reflexivity|]. split; [apply grows_refl|].
    split; [done|]. simpl. lia. }
  destruct (round_body_spec p (surface idx) st w) as (r1 & w1 & n1 & E1 & G1 & F1 & P1).
  simpl. unfold bind at 1. rewrite E1.
  destruct r1 as [[st1|st1|st1]|e]; simpl in P1.
  - destruct (IH (S idx) st1 w1) as (r & w' & n2 & E2 & G2 & F2 & P2).
    exists r, w', (n1 ++ n2). split; [done|].
    split; [by eapply grows_trans|]. split; [tauto|].
    destruct P1 as (M1 & T1 & C1).
    destruct r as [st'|e]; simpl in *; rewrite length_app, Nat2Z.inj_add.
    + destruct P2 as (M2 & T2 & C2). split_and!; lia.
    + lia.
  - exists (Ok st1), w1, n1. unfold ret. do 3 (split; [done|]). simpl.
    destruct P1 as (M1 & T1 & C1). split_and!; lia.
  - exists (Ok st1), w1, n1. unfold ret. do 3 (split; [done|]). simpl.
    destruct P1 as (M1 & T1 & C1). split_and!; lia.
  - by exists (Raise e), w1, n1.
Qed.

(** The whole call: what it appends is counted by what it returns, and a
    positive cap bounds it. *)
Lemma stream_scroll_collect_spec (p : params) (surface : nat → round_env) (w : world) :
  ∃ r w' new,
    stream_scroll_collect p surface w = (r, w')
    ∧ grows w w' new
    ∧ (all_flushed w → all_flushed w')
    ∧ match r with
      | Ok n =>
          n = Z.of_nat (length new)
          ∧ (0 < max_reviews p → n ≤ max_reviews p)
      | Raise e => 0 < max_reviews p → Z.of_nat (length new) < max_reviews p
      end.
Proof.
  unfold stream_scroll_collect, collect, bind.
  destruct (rounds_from_spec (Z.to_nat (max_rounds p)) 0 p surface init_state w)
    as (r & w' & new & E & G & F & P).
  rewrite E. destruct r as [st'|e]; simpl in P.
  - exists (Ok (total_written st')), w', new. unfold ret. do 3 (split; [done|]).
    destruct P as (_ & T & C). split; lia.
  - exists (Raise e), w', new. do 3 (split; [done|]). lia.
Qed.

(** ** The sources *)

Lemma extends_same (w w' : world) :
  seen_keys w' = seen_keys w → out_f w' = out_f w → extends w w'.
Proof.
  intros Hs Ho. exists []. split; [by apply grows_same|].
  unfold all_flushed. by rewrite Ho.
Qed.

Lemma extends_refl (w : world) : extends w w.
Proof. by apply extends_same. Qed.

Lemma extends_trans (w w1 w2 : world) : extends w w1 → extends w1 w2 → extends w w2.
Proof.
  intros (n1 & G1 & F1) (n2 & G2 & F2). exists (n1 ++ n2).
  split; [by eapply grows_trans|tauto].
Qed.

Lemma extends_print (m : message) (w : world) : extends w (print m w).2.
Proof. by apply extends_same. Qed.

Lemma scrape_place_extends (a : args) (idx : Z) (url : string) (env : source_env)
    (w w' : world) (r : result loop_ctl) :
  scrape_place a idx url env w = (r, w') → extends w w'.
Proof.
  unfold scrape_place.
  destruct (falsy (found_scroll_sel env) || falsy (found_card_sel env)).
  { intros [= <- <-]. by apply extends_same. }
  unfold bind at 1. unfold surface_call.
  destruct (ready_outcome env) as [[]|e]; [|intros [= <- <-]; apply extends_refl].
  unfold ret at 1. unfold bind at 1.
  match goal with |- context [stream_scroll_collect ?q ?s w] =>
    destruct (stream_scroll_collect_spec q s w) as (r1 & w1 & new & E & G & F & _);
    rewrite E
  end.
  assert (extends w w1) as X by by exists new.
  destruct r1 as [n|e]; intros [= <- <-]; [|done].
  eapply extends_trans; [exact X|]. by apply extends_same.
Qed.

Lemma visit_extends (a : args) (idx : Z) (url : string) (env : source_env)
    (w w' : world) (r : result loop_ctl) :
  visit a idx url env w = (r, w') → extends w w'.
Proof.
  unfold visit. unfold bind at 1. unfold surface_call.
  destruct (goto_outcome env) as [[]|e]; [|intros [= <- <-]; apply extends_refl].
  unfold ret at 1.
  destruct (detect_captcha_or_block (nav_page env)); [|apply scrape_place_extends].
  unfold bind at 1.
  destruct (handle_captcha_interactive url (a_headful a) w) as [[act|e] w1] eqn:E;
    apply handle_captcha_frame in E as (Hs & Ho & _).
  - assert (extends w w1) as X by by apply extends_same.
    destruct act.
    + intros [= <- <-]. eapply extends_trans; [exact X|]. by apply extends_same.
    + intros [= <- <-]. eapply extends_trans; [exact X|]. by apply extends_same.
    + intros E. eapply extends_trans; [exact X|]. by eapply scrape_place_extends.
  - intros [= <- <-]. by apply extends_same.
Qed.

Lemma visit_guarded_extends (a : args) (idx : Z) (url : string) (env : source_env)
    (w w' : world) (c : loop_ctl) :
  visit_guarded a idx url env w = (c, w') → extends w w'.
Proof.
  unfold visit_guarded.
  destruct (visit a idx url env w) as [[c1|e] w1] eqn:E; apply visit_extends in E.
  - by intros [= <- <-].
  - destruct e; intros [= <- <-];
      (eapply extends_trans; [exact E|]; by apply extends_same).
Qed.

Lemma main_loop_extends (a : args) (k : nat) (urls : list string)
    (surface : nat → source_env) (w : world) :
  extends w (main_loop a k urls surface w).
Proof.
  revert k w. induction urls as [|url rest IH]; intros k w; [apply extends_refl|].
  simpl.
  destruct (visit_guarded a (Z.of_nat k + 1) url (surface k) w) as [[] w1] eqn:E;
    apply visit_guarded_extends in E; [|done].
  eapply extends_trans; [exact E|]. apply IH.
Qed.

(** The rows of a whole run: pairwise distinct keys, none of them in the
    file at start-up, each the digest of its row; and all of them flushed. *)
Lemma main_rows (a : args) (url_lines : list string) (existing : list json_line)
    (operator : list (string * page_state)) (time_time : nat → Z)
    (surface : nat → source_env) :
  let w := main a url_lines existing operator time_time surface in
  NoDup (keys (rows_of w))
  ∧ (∀ k, k ∈ keys (rows_of w) → k ∉ load_seen_keys existing)
  ∧ (∀ k, k ∈ keys (rows_of w) → k ∈ seen_keys w)
  ∧ Forall key_ok (rows_of w)
  ∧ all_flushed w.
Proof.
  unfold main.
  set (w0 := World (load_seen_keys existing) (OutFile [] []) operator time_time []).
  destruct (main_loop_extends a 0 (load_urls url_lines) surface w0) as (new & G & F).
  set (w1 := main_loop a 0 (load_urls url_lines) surface w0) in *.
  set (w2 := (bind out_flush (fun _ => print MsgDone) w1).2).
  assert (grows w0 w2 new) as [R _ S D Fr K].
  { by eapply grows_then_flush; [exact G|..]. }
  change (rows_of w0) with (@nil Row) in R. rewrite app_nil_l in R.
  rewrite R. split_and!; try done.
  intros k Hk. apply S. by right.
Qed.

(** ** The record key *)

(** C1. The key of a record is a function of the five inputs (org_id,
    author id, raw timestamp [date_iso], raw rating token, final text) and
    of nothing else: two records written by any two runs, whatever their
    arguments, start-up files, operators, clocks and surfaces, have the
    same key as soon as they agree on these five fields; the key is the
    SHA-1 digest of the five fields joined by a vertical bar. *)
Theorem review_key_pure
    (a1 a2 : args) (lines1 lines2 : list string) (ex1 ex2 : list json_line)
    (op1 op2 : list (string * page_state)) (t1 t2 : nat → Z)
    (sf1 sf2 : nat → source_env) (r1 r2 : Row) :
  r1 ∈ rows_of (main a1 lines1 ex1 op1 t1 sf1) →
  r2 ∈ rows_of (main a2 lines2 ex2 op2 t2 sf2) →
  org_id r1 = org_id r2 →
  author_id r1 = author_id r2 →
  date_iso r1 = date_iso r2 →
  rating_raw r1 = rating_raw r2 →
  text r1 = text r2 →
  review_key r1 = review_key r2
  ∧ review_key r1
    = sha1 (key_material (org_id r1) (author_id r1) (date_iso r1) (rating_raw r1) (text r1)).
Proof.
  intros H1 H2 Eo Ea Ed Er Et.
  destruct (main_rows a1 lines1 ex1 op1 t1 sf1) as (_ & _ & _ & K1 & _).
  destruct (main_rows a2 lines2 ex2 op2 t2 sf2) as (_ & _ & _ & K2 & _).
  rewrite Forall_forall in K1, K2.
  specialize (K1 r1 H1). specialize (K2 r2 H2).
  unfold key_ok in *. split; [|exact K1].
  rewrite K1, K2. congruence.
Qed.

(** ** Emission at most once per key *)

(** C2. Within one run at most one record is appended per key: the keys
    of the records a run appends are pairwise distinct, and none of them
    was in the output file at start-up. It holds call by call as well: the
    records one call of the collection loop appends, from any state of the
    shared seen-key set, have pairwise distinct keys that were not in the
    set, and are in it afterwards. *)
Theorem emitted_at_most_once_per_key
    (a : args) (url_lines : list string) (existing : list json_line)
    (operator : list (string * page_state)) (time_time : nat → Z)
    (surface : nat → source_env) :
  NoDup (keys (rows_of (main a url_lines existing operator time_time surface)))
  ∧ (∀ k, k ∈ keys (rows_of (main a url_lines existing operator time_time surface)) →
          k ∉ load_seen_keys existing)
  ∧ (∀ (p : params) (rounds : nat → round_env) (w : world),
       ∃ new,
         rows_of (stream_scroll_collect p rounds w).2 = rows_of w ++ new
         ∧ NoDup (keys new)
         ∧ (∀ k, k ∈ keys new → k ∉ seen_keys w)
         ∧ (∀ k, k ∈ seen_keys (stream_scroll_collect p rounds w).2
                 ↔ k ∈ seen_keys w ∨ k ∈ keys new)).
Proof.
  destruct (main_rows a url_lines existing operator time_time surface)
    as (D & F & _ & _ & _).
  split_and!; try done.
  intros p rounds w.
  destruct (stream_scroll_collect_spec p rounds w) as (r & w' & new & E & G & _ & _).
  rewrite E. exists new. by destruct G.
Qed.

(** ** The watermark *)

Lemma card_pos_at_or_below (maxPos : Z) (c : card) :
  at_or_below maxPos c = true → card_pos maxPos c = None.
Proof.
  unfold at_or_below, card_pos, position.
  destruct (parseInt _) as [pos|]; [|done].
  intros ->. by rewrite orb_true_r.
Qed.

Lemma card_pos_above (maxPos pos : Z) (c : card) :
  card_pos maxPos c = Some pos → maxPos < pos.
Proof.
  unfold card_pos. destruct (parseInt _) as [q|]; [|done].
  destruct ((q =? 0) || (q <=? maxPos)) eqn:E; [done|].
  intros [= <-]. lia.
Qed.

Lemma js_extract_loop_filter (maxPos : Z) (els : list card) (maxSeen : Z) :
  js_extract_loop maxPos (List.filter (above maxPos) els) maxSeen
  = js_extract_loop maxPos els maxSeen.
Proof.
  revert maxSeen. induction els as [|c rest IH]; intros maxSeen; [done|].
  simpl. unfold above at 1. destruct (at_or_below maxPos c) eqn:E; simpl.
  - rewrite (card_pos_at_or_below _ _ E). apply IH.
  - destruct (card_pos maxPos c); [|apply IH]. by rewrite IH.
Qed.

Lemma js_extract_loop_above (maxPos : Z) (els : list card) (maxSeen : Z) :
  Forall (fun it => maxPos < it_pos it) (js_extract_loop maxPos els maxSeen).1.
Proof.
  revert maxSeen. induction els as [|c rest IH]; intros maxSeen; [constructor|].
  simpl. destruct (card_pos maxPos c) as [pos|] eqn:E; [|apply IH].
  specialize (IH (if maxSeen <? pos then pos else maxSeen)).
  destruct (js_extract_loop maxPos rest _) as [items ms]. simpl in *.
  constructor; [|done]. unfold read_card.
  destruct (isEllipsisEnd (text_first c)); simpl; by eapply card_pos_above.
Qed.

Lemma round_body_watermark (p : params) (re : round_env) (st : coll_state)
    (w w' : world) (s : signal) :
  round_body p re st w = (Ok s, w') →
  max_pos_parsed st ≤ max_pos_parsed (final_state s).
Proof.
  intros E. destruct (round_body_spec p re st w) as (r & w1 & n & E1 & _ & _ & P).
  rewrite E in E1. injection E1 as <- <-. by destruct P.
Qed.

Lemma rounds_from_watermark (fuel idx : nat) (p : params) (surface : nat → round_env)
    (st st' : coll_state) (w w' : world) :
  rounds_from fuel idx p surface st w = (Ok st', w') →
  max_pos_parsed st ≤ max_pos_parsed st'.
Proof.
  intros E. destruct (rounds_from_spec fuel idx p surface st w)
    as (r & w1 & n & E1 & _ & _ & P).
  rewrite E in E1. injection E1 as <- <-. by destruct P.
Qed.

(** C3. The watermark [max_pos_parsed] never decreases: not over one
    round, however the round ends, and not from any round to the end of the
    loop. In every round the cards whose position is at or below the
    watermark are skipped before anything is done with them: every item the
    script hands over has a position above the watermark, and the round
    runs exactly as it would if those cards were not on the page. *)
Theorem watermark_monotone_and_skip :
  (∀ (p : params) (re : round_env) (st : coll_state) (w w' : world) (s : signal),
     round_body p re st w = (Ok s, w') →
     max_pos_parsed st ≤ max_pos_parsed (final_state s))
  ∧ (∀ (fuel idx : nat) (p : params) (surface : nat → round_env)
       (st st' : coll_state) (w w' : world),
       rounds_from fuel idx p surface st w = (Ok st', w') →
       max_pos_parsed st ≤ max_pos_parsed st')
  ∧ (∀ (p : params) (re : round_env) (st : coll_state) (w : world) (els : list card),
       eval_outcome re = Ok els →
       Forall (fun it => max_pos_parsed st < it_pos it)
         (js_extract_new els (max_pos_parsed st)).1
       ∧ round_body p re st w
         = round_body p (with_cards re (List.filter (above (max_pos_parsed st)) els)) st w).
Proof.
  split_and!.
  - apply round_body_watermark.
  - apply rounds_from_watermark.
  - intros p re st w els E. split; [apply js_extract_loop_above|].
    unfold round_body, with_cards, blocked_exit, decide_stop, scroll_and_wait. simpl.
    rewrite E. unfold js_extract_new. by rewrite js_extract_loop_filter.
Qed.

(** ** The per-source cap *)

Lemma emit_item_writable (p : params) (st : coll_state) (it : item) (w : world) :
  writable p it w →
  emit_item p st it w
  = if cap_reached p (counted st it)
    then (Ok (Return (counted st it)), after_flush (after_write w (row_of p it w)))
    else (Ok (Proceed (counted st it)), after_write w (row_of p it w)).
Proof.
  intros [Ht Hk]. unfold emit_item. rewrite Ht.
  unfold bind, seen_mem. rewrite bool_decide_eq_false_2 by done.
  unfold cap_reached, counted. simpl.
  by destruct ((0 <? max_reviews p) && (max_reviews p <=? total_written st + 1)).
Qed.


(** ** Malformed ratings *)

(** C9. An item whose raw rating is empty or does not parse as a number
    is written all the same (its text not being empty and its key being
    new): the record appended has a null [rating] and carries the raw
    rating token unchanged. *)
Theorem malformed_rating_kept (p : params) (st : coll_state) (it : item) (w : world) :
  writable p it w →
  Str.is_empty (str_strip (it_rating_raw it)) = true
  ∨ py_float (Str.replace_comma_by_dot (str_strip (it_rating_raw it))) = None →
  ∃ s w',
    emit_item p st it w = (Ok s, w')
    ∧ rows_of w' = rows_of w ++ [row_of p it w]
    ∧ rating (row_of p it w) = None
    ∧ rating_raw (row_of p it w) = it_rating_raw it
    ∧ text (row_of p it w) = str_strip (it_text it)
    ∧ review_key (row_of p it w) ∈ seen_keys w'.
Proof.
  intros Hw Hr.
  assert (to_float (it_rating_raw it) = None) as Hf.
  { unfold to_float. destruct Hr as [->| ->]; [done|].
    by destruct (Str.is_empty (str_strip (it_rating_raw it))). }
  rewrite (emit_item_writable _ _ _ _ Hw).
  assert (rows_of (after_write w (row_of p it w)) = rows_of w ++ [row_of p it w]) as Hrows.
  { unfold rows_of, written_rows. simpl. by rewrite app_assoc. }
  assert (review_key (row_of p it w) ∈ seen_keys (after_write w (row_of p it w))) as Hin.
  { simpl. apply elem_of_union. left. by apply elem_of_singleton. }
  destruct (cap_reached p (counted st it)); eexists _, _; (split; [reflexivity|]).
  - split_and!; try done.
    unfold rows_of, written_rows in *. simpl in *. by rewrite app_nil_r.
  - by split_and!.
Qed.

(** ** The block detector *)

(** C7. The detector fails open: when reading the text of the page raises
    (an error or a time-out) and the address does not match the challenge
    path, the detector answers "not blocked"; nothing is raised. *)
Theorem detector_fails_open (page : page_state) :
  body_inner_text page = None →
  challenge_path page = false →
  detect_captcha_or_block page = false.
Proof.
  unfold challenge_path, detect_captcha_or_block. by intros -> ->.
Qed.

(** ** Stalls and the round budget *)

Lemma decide_stop_inv (p : params) (re : round_env) (st : coll_state)
    (w w' : world) (s : signal) :
  decide_stop p re st w = (Ok s, w') →
  (s = Break st ∧ no_progress_limit p ≤ no_progress st)
  ∨ (s = Proceed st ∧ no_progress st < no_progress_limit p).
Proof.
  destruct (decide_stop_cases p re st w) as [[L D]|[L [[_ D]|[e [_ D]]]]];
    rewrite D; intros [= <- <-]; auto.
Qed.

Lemma round_body_counters (p : params) (re : round_env) (st : coll_state)
    (w w' : world) (s : signal) :
  round_body p re st w = (Ok s, w') →
  match s with
  | Proceed st' => counters_updated re st st' ∧ no_progress st' < no_progress_limit p
  | Break st' => counters_updated re st st' ∧ no_progress_limit p ≤ no_progress st'
  | Return st' => st' = st ∨ (0 < max_reviews p ∧ max_reviews p ≤ total_written st')
  end.
Proof.
  unfold round_body, bind, counters_updated.
  destruct (blocked_exit p re w) as [[leave|e] w0]; [|done].
  destruct leave; [unfold ret; intros [= <- <-]; by left|].
  destruct (eval_outcome re) as [els|e].
  - destruct (js_extract_new els (max_pos_parsed st)) as [items max_seen]. simpl.
    destruct (emit_items_spec p items st w0) as (s1 & w1 & n & E & _ & _ & _ & P).
    rewrite E. destruct P as (PM & PN & _ & PC).
    destruct s1 as [st1|st1|st1]; simpl in *; [|done|].
    + change (out_flush w1) with (Ok tt, after_flush w1). cbv beta iota.
      intros D. apply decide_stop_inv in D.
      destruct (advance_watermark_fields max_seen st1) as (_ & _ & A).
      rewrite PM, PN in A.
      destruct D as [[-> L]|[-> L]]; by split.
    + unfold ret. intros [= <- <-]. right. tauto.
  - destruct e; try done. intros D. apply decide_stop_inv in D.
    destruct D as [[-> L]|[-> L]]; simpl in *; by split.
Qed.






(** ** Blocks in headless mode *)

Lemma blocked_exit_headless (p : params) (re : round_env) (w : world) :
  headful p = false →
  detect_captcha_or_block (round_page re) = true →
  blocked_exit p re w = (Ok true, say [MsgCaptchaHeadless (p_source_url p)] w).
Proof.
  intros Hh Hd. unfold blocked_exit, bind. rewrite Hd, Hh.
  by rewrite handle_captcha_headless.
Qed.

Lemma round_body_headless_block (p : params) (re : round_env) (st : coll_state)
    (w : world) :
  headful p = false →
  detect_captcha_or_block (round_page re) = true →
  round_body p re st w
  = (Ok (Return st), say [MsgCaptchaHeadless (p_source_url p)] w).
Proof.
  intros Hh Hd. unfold round_body, bind. by rewrite blocked_exit_headless.
Qed.

Lemma scrape_place_next (a : args) (idx : Z) (url : string) (env : source_env)
    (w w' : world) (c : loop_ctl) :
  scrape_place a idx url env w = (Ok c, w') → c = NextUrl.
Proof.
  unfold scrape_place.
  destruct (falsy (found_scroll_sel env) || falsy (found_card_sel env)).
  { by intros [= <- <-]. }
  unfold bind, surface_call.
  destruct (ready_outcome env) as [[]|e]; [|done]. unfold ret at 1.
  destruct (stream_scroll_collect _ _ w) as [[n|e] w1]; [|done].
  by intros [= <- <-].
Qed.

Lemma visit_headless_next (a : args) (idx : Z) (url : string) (env : source_env)
    (w w' : world) (c : loop_ctl) :
  a_headful a = false →
  visit a idx url env w = (Ok c, w') → c = NextUrl.
Proof.
  intros Hh. unfold visit, bind, surface_call.
  destruct (goto_outcome env) as [[]|e]; [|done]. unfold ret at 1.
  destruct (detect_captcha_or_block (nav_page env)); [|apply scrape_place_next].
  rewrite Hh, handle_captcha_headless. by intros [= <- <-].
Qed.

(** C8, as amended. In headless mode the recovery handler answers "skip"
    at once and reads nothing from the terminal. A source found blocked
    after navigation is skipped with no record emitted and the run goes on
    with the next address. A source found blocked at the top of a round is
    left there: the round emits nothing, the call returns the count written
    before the block (0 when the block is met in the first round), and the
    visit of the address ends in "next address". *)
Theorem headless_block_skips :
  (∀ (url : string) (w : world),
     handle_captcha_interactive url false w
     = (Ok ActSkip, say [MsgCaptchaHeadless url] w))
  ∧ (∀ (a : args) (k : nat) (url : string) (rest : list string)
       (surface : nat → source_env) (w : world),
       a_headful a = false →
       goto_outcome (surface k) = Ok tt →
       detect_captcha_or_block (nav_page (surface k)) = true →
       main_loop a k (url :: rest) surface w
       = main_loop a (S k) rest surface
           (say [MsgCaptchaHeadless url; MsgSkipCaptcha (Z.of_nat k + 1) url] w))
  ∧ (∀ (p : params) (surface : nat → round_env) (fuel idx : nat)
       (st : coll_state) (w : world),
       headful p = false →
       detect_captcha_or_block (round_page (surface idx)) = true →
       round_body p (surface idx) st w
       = (Ok (Return st), say [MsgCaptchaHeadless (p_source_url p)] w)
       ∧ rounds_from (S fuel) idx p surface st w
         = (Ok st, say [MsgCaptchaHeadless (p_source_url p)] w))
  ∧ (∀ (p : params) (surface : nat → round_env) (w : world),
       headful p = false →
       0 < max_rounds p →
       detect_captcha_or_block (round_page (surface O)) = true →
       stream_scroll_collect p surface w
       = (Ok 0, say [MsgCaptchaHeadless (p_source_url p)] w))
  ∧ (∀ (a : args) (idx : Z) (url : string) (env : source_env)
       (w w' : world) (c : loop_ctl),
       a_headful a = false →
       visit a idx url env w = (Ok c, w') → c = NextUrl).
Proof.
  split_and!.
  - intros url w. apply handle_captcha_headless.
  - intros a k url rest surface w Hh Hg Hd. simpl.
    unfold visit_guarded, visit, bind, surface_call.
    rewrite Hg. unfold ret at 1. rewrite Hd, Hh, handle_captcha_headless.
    unfold print, ret, say. simpl. by rewrite <- app_assoc.
  - intros p surface fuel idx st w Hh Hd.
    pose proof (round_body_headless_block p (surface idx) st w Hh Hd) as E.
    split; [exact E|]. simpl. unfold bind. by rewrite E.
  - intros p surface w Hh Hr Hd.
    unfold stream_scroll_collect, collect, bind.
    destruct (Z.to_nat (max_rounds p)) as [|fuel] eqn:E; [lia|].
    simpl. unfold bind. by rewrite round_body_headless_block.
  - apply visit_headless_next.
Qed.

(** ** The cap that is not positive *)

Lemma emit_items_unlimited (p : params) (items : list item) (st : coll_state)
    (w : world) :
  max_reviews p ≤ 0 →
  ∃ st' w', emit_items p items st w = (Ok (Proceed st'), w').
Proof.
  intros Hcap.
  destruct (emit_items_spec p items st w) as (s & w' & n & E & _ & _ & _ & P).
  rewrite E. destruct P as (_ & _ & _ & P).
  destruct s as [st'|st'|st']; [by eexists _, _|done|lia].
Qed.

Lemma round_body_return_unlimited (p : params) (re : round_env) (st st' : coll_state)
    (w w' : world) :
  max_reviews p ≤ 0 →
  round_body p re st w = (Ok (Return st'), w') →
  detect_captcha_or_block (round_page re) = true ∧ st' = st.
Proof.
  intros Hcap E. pose proof (round_body_counters _ _ _ _ _ _ E) as [->|C]; [|lia].
  split; [|done]. revert E. unfold round_body, bind, blocked_exit.
  destruct (detect_captcha_or_block (round_page re)); [done|].
  unfold ret at 1.
  destruct (eval_outcome re) as [els|e].
  - destruct (js_extract_new els (max_pos_parsed st)) as [items max_seen].
    destruct (emit_items_unlimited p items st w Hcap) as (st1 & w1 & ->).
    change (out_flush w1) with (Ok tt, after_flush w1). cbv beta iota.
    intros D. apply decide_stop_inv in D. by destruct D as [[? _]|[? _]].
  - destruct e; try done.
    intros D. apply decide_stop_inv in D. by destruct D as [[? _]|[? _]].
Qed.

(** C10, as amended. When [max_reviews <= 0] the cap check is never
    taken: the item loop never returns, and an item whose text is not empty
    and whose key is new is written whatever the count so far. The only
    [return] a round can then take is the one at its top, when the detector
    reports a block and the recovery answers skip or quit, and the only
    [break] is the one of the stall limit; otherwise the loop goes on to the
    end of the round budget, unless the surface or the terminal raises. *)
Theorem unlimited_cap (p : params) :
  max_reviews p ≤ 0 →
  (∀ (items : list item) (st : coll_state) (w : world),
     ∃ st' w', emit_items p items st w = (Ok (Proceed st'), w'))
  ∧ (∀ (st : coll_state) (it : item) (w : world),
       writable p it w →
       emit_item p st it w
       = (Ok (Proceed (counted st it)), after_write w (row_of p it w)))
  ∧ (∀ (re : round_env) (st st' : coll_state) (w w' : world),
       round_body p re st w = (Ok (Return st'), w') →
       detect_captcha_or_block (round_page re) = true ∧ st' = st)
  ∧ (∀ (re : round_env) (st st' : coll_state) (w w' : world),
       round_body p re st w = (Ok (Break st'), w') →
       no_progress_limit p ≤ no_progress st').
Proof.
  intros Hcap. split_and!.
  - intros items st w. by apply emit_items_unlimited.
  - intros st it w Hw. rewrite (emit_item_writable _ _ _ _ Hw).
    assert (cap_reached p (counted st it) = false) as ->; [|done].
    unfold cap_reached. lia.
  - intros re st st' w w'. by apply round_body_return_unlimited.
  - intros re st st' w w' E. by destruct (round_body_counters _ _ _ _ _ _ E).
Qed.

(** ** The operator's quit *)

(** At navigation time ["quit"] ends the run: the addresses that follow
    are not visited. *)
Lemma quit_at_navigation_stops_run (a : args) (k : nat) (url : string)
    (rest : list string) (surface : nat → source_env) (w w1 : world) :
  goto_outcome (surface k) = Ok tt →
  detect_captcha_or_block (nav_page (surface k)) = true →
  handle_captcha_interactive url (a_headful a) w = (Ok ActQuit, w1) →
  main_loop a k (url :: rest) surface w = say [MsgQuit] w1
  ∧ rows_of (say [MsgQuit] w1) = rows_of w.
Proof.
  intros Hg Hd Hq. simpl. unfold visit_guarded, visit, bind, surface_call.
  rewrite Hg. unfold ret at 1. rewrite Hd, Hq. split; [done|].
  apply handle_captcha_frame in Hq as (_ & Ho & _).
  unfold rows_of. simpl. by rewrite Ho.
Qed.

(** Inside the round loop ["quit"] and ["skip"] are one and the same: the
    call returns the count so far, and [main] cannot tell them apart. *)
Lemma quit_is_skip_in_round (p : params) (re : round_env) (st : coll_state)
    (w w1 : world) (act : action) :
  detect_captcha_or_block (round_page re) = true →
  handle_captcha_interactive (p_source_url p) (headful p) w = (Ok act, w1) →
  act = ActQuit ∨ act = ActSkip →
  round_body p re st w = (Ok (Return st), w1).
Proof.
  intros Hd Hq Ha. unfold round_body, bind, blocked_exit, bind.
  rewrite Hd, Hq. by destruct Ha as [-> | ->].
Qed.

End Properties.


Example run_a_rows :
  List.map (fun r => (rating_raw r, rating r, text r)) (rows_of Scenario.run_a)
  = [("5", Some (Finite false 5 0), "Great food");
     ("x", None, "Too loud");
     ("4,5", Some (Finite false 45 (-1)), "Fine")]
  ∧ stdout Scenario.run_a = [MsgWritten 1 Scenario.cafe_url 3; MsgDone].
Proof. vm_compute. split; reflexivity. Qed.

Example run_quit_at_navigation_stops :
  stdout Scenario.run_quit_at_navigation = [MsgCaptchaBanner; MsgQuit; MsgDone]
  ∧ rows_of Scenario.run_quit_at_navigation = [].
Proof. vm_compute. split; reflexivity. Qed.

(** * The theorems at work *)

(** C1 at two runs of different days, addresses, names and clocks. *)
Lemma review_key_pure_witness :
  review_key Scenario.row_a = review_key Scenario.row_b.
Proof.
  refine (proj1 (review_key_pure
            Scenario.headless (Args true 5 1 1)
            [Scenario.cafe_url] ["# places"; Scenario.cafe_url_renamed]
            [] [BadLine; GoodLine (Some "00ff")] [] []
            Reference.clock (fun k => Z.of_nat k + 1800000000)
            (fun _ => Scenario.place "Cafe" (Scenario.reviews_page Scenario.cafe_url)
                        (Scenario.steady_rounds Scenario.cafe_url))
            (fun _ => Scenario.place "Cafe na uglu"
                        (Scenario.reviews_page Scenario.cafe_url_renamed)
                        (Scenario.steady_rounds Scenario.cafe_url_renamed))
            Scenario.row_a Scenario.row_b _ _ _ _ _ _ _)).
  - apply list_elem_of_In. vm_compute. left. reflexivity.
  - apply list_elem_of_In. vm_compute. left. reflexivity.
  - vm_compute. reflexivity.
  - vm_compute. reflexivity.
  - vm_compute. reflexivity.
  - vm_compute. reflexivity.
  - vm_compute. reflexivity.
Defined.

(** C2 at the run [Scenario.run_a]. *)
Lemma emitted_at_most_once_witness :
  NoDup (keys (rows_of Scenario.run_a)).
Proof.
  exact (proj1 (emitted_at_most_once_per_key Scenario.headless [Scenario.cafe_url] [] []
                  Reference.clock
                  (fun _ => Scenario.place "Cafe" (Scenario.reviews_page Scenario.cafe_url)
                              (Scenario.steady_rounds Scenario.cafe_url)))).
Defined.

(** C3 at the loop of [Scenario.steady_rounds]. *)
Lemma watermark_monotone_witness :
  max_pos_parsed init_state ≤ max_pos_parsed Scenario.steady_end.1.
Proof.
  refine (proj1 (proj2 watermark_monotone_and_skip) 10%nat 0%nat Scenario.unlimited
            (Scenario.steady_rounds Scenario.cafe_url) init_state Scenario.steady_end.1
            Scenario.fresh_world Scenario.steady_end.2 _).
  vm_compute. reflexivity.
Defined.



(** C7 at a page whose text cannot be read. *)
Lemma detector_fails_open_witness :
  detect_captcha_or_block (Scenario.unreadable_page Scenario.cafe_url) = false.
Proof.
  apply detector_fails_open.
  - reflexivity.
  - vm_compute. reflexivity.
Defined.

(** C9 at an item whose rating is ["x"]. *)
Lemma malformed_rating_kept_witness :
  ∃ s w',
    emit_item Scenario.capped init_state Scenario.loud_item Scenario.fresh_world
    = (Ok s, w')
    ∧ rows_of w'
      = rows_of Scenario.fresh_world
        ++ [row_of Scenario.capped Scenario.loud_item Scenario.fresh_world]
    ∧ rating (row_of Scenario.capped Scenario.loud_item Scenario.fresh_world) = None
    ∧ rating_raw (row_of Scenario.capped Scenario.loud_item Scenario.fresh_world)
      = it_rating_raw Scenario.loud_item
    ∧ text (row_of Scenario.capped Scenario.loud_item Scenario.fresh_world)
      = str_strip (it_text Scenario.loud_item)
    ∧ review_key (row_of Scenario.capped Scenario.loud_item Scenario.fresh_world)
      ∈ seen_keys w'.
Proof.
  apply malformed_rating_kept.
  - split; [vm_compute; reflexivity|]. apply not_elem_of_empty.
  - right. vm_compute. reflexivity.
Defined.

(** C8 as it is written fails: in the headless run [Scenario.run_blocked_late]
    the first round writes the three reviews of the page, the second round
    finds the challenge page, and the three records of the blocked address
    are in the output. *)
Lemma headless_block_after_records :
  ¬ blocked_source_emits_nothing Scenario.headless [Scenario.cafe_url] [] []
      Reference.clock
      (fun _ => Scenario.place "Cafe" (Scenario.reviews_page Scenario.cafe_url)
                  (Scenario.blocked_after_one Scenario.cafe_url))
      Scenario.cafe_url.
Proof.
  intros H.
  refine (H eq_refl _ (List.nth 0 (rows_of Scenario.run_blocked_late) Scenario.no_row) _ _).
  - apply list_elem_of_In. vm_compute. left. reflexivity.
  - apply list_elem_of_In. vm_compute. left. reflexivity.
  - vm_compute. reflexivity.
Qed.

(** C8, as amended, at a headless call that meets the challenge page in
    its first round. *)
Lemma headless_block_skips_witness :
  stream_scroll_collect Scenario.unlimited Scenario.blocked_rounds Scenario.fresh_world
  = (Ok 0, say [MsgCaptchaHeadless (p_source_url Scenario.unlimited)] Scenario.fresh_world).
Proof.
  refine (proj1 (proj2 (proj2 (proj2 headless_block_skips)))
            Scenario.unlimited Scenario.blocked_rounds Scenario.fresh_world _ _ _).
  - reflexivity.
  - reflexivity.
  - vm_compute. reflexivity.
Defined.

(** C10 as it is written fails: with [max_reviews = 0], in headless mode,
    a round that starts on the challenge page ends by [return], with the
    stall counter at 0 and nine rounds of the budget left. *)
Lemma unlimited_cap_block_returns :
  ¬ only_stall_or_budget Scenario.unlimited
  ∧ no_progress init_state < no_progress_limit Scenario.unlimited
  ∧ 1 < max_rounds Scenario.unlimited.
Proof.
  split; [|split; reflexivity].
  intros H.
  assert (max_reviews Scenario.unlimited ≤ 0) as Hcap by (vm_compute; discriminate).
  apply (H Hcap (Scenario.blocked_rounds 0) init_state init_state Scenario.fresh_world
           (say [MsgCaptchaHeadless Scenario.cafe_url] Scenario.fresh_world)).
  vm_compute. reflexivity.
Qed.

(** C10, as amended, at [max_reviews = 0]. *)
Lemma unlimited_cap_witness :
  max_reviews Scenario.unlimited ≤ 0
  ∧ ∃ st' w',
      emit_items Scenario.unlimited [Scenario.loud_item; Scenario.fine_item]
        Scenario.one_written Scenario.fresh_world
      = (Ok (Proceed st'), w').
Proof.
  assert (max_reviews Scenario.unlimited ≤ 0) as H by (vm_compute; discriminate).
  split; [exact H|].
  exact (proj1 (unlimited_cap Scenario.unlimited H)
           [Scenario.loud_item; Scenario.fine_item] Scenario.one_written
           Scenario.fresh_world).
Defined.

(** C4. The operator's quit does not stop the run when it is given inside
    the round loop. In the headful run [Scenario.run_quit_mid_collection]
    the first address shows the challenge page at the top of its first
    round and the operator types [q], the only line typed; the call returns
    0 and [main] goes on to the second address, whose three reviews are
    written. Given at navigation time the same answer ends the run
    ([quit_at_navigation_stops_run]). *)
Theorem quit_mid_collection_continues_run :
  stdout Scenario.run_quit_mid_collection
  = [MsgCaptchaBanner; MsgWritten 1 Scenario.cafe_url 0;
     MsgWritten 2 Scenario.bar_url 3; MsgDone]
  ∧ List.map source_url (rows_of Scenario.run_quit_mid_collection)
    = [Scenario.bar_url; Scenario.bar_url; Scenario.bar_url]
  ∧ stdin Scenario.run_quit_mid_collection = []
  ∧ stdout Scenario.run_quit_at_navigation = [MsgCaptchaBanner; MsgQuit; MsgDone]
  ∧ rows_of Scenario.run_quit_at_navigation = [].
Proof. vm_compute. repeat split. Qed.

(** * More of the program *)

Section MoreProperties.
Context `{RT : Runtime}.

(** ** Substrings *)

Lemma prefix_is_append (a s : string) :
  String.prefix a s = true ↔ ∃ post, s = a +:+ post.
Proof.
  revert s. induction a as [|c a IH]; intros s.
  { destruct s; cbn; (split; [intros _; by eexists|done]). }
  destruct s as [|d s]; cbn.
  { split; [done|]. by intros [post H]. }
  destruct (Ascii.ascii_dec c d) as [->|Hne].
  - rewrite IH. split; intros [post H]; exists post; [by rewrite H|by injection H].
  - split; [done|]. intros [post H]. by injection H.
Qed.

Lemma contains_cons (n : string) (c : ascii) (s : string) :
  Str.contains n (String c s) = String.prefix n (String c s) || Str.contains n s.
Proof. reflexivity. Qed.

Lemma contains_nil (n : string) :
  Str.contains n EmptyString = String.prefix n EmptyString || false.
Proof. reflexivity. Qed.

Lemma contains_is_infix (n s : string) :
  Str.contains n s = true ↔ ∃ pre post, s = pre +:+ n +:+ post.
Proof.
  induction s as [|c s IH]; [rewrite contains_nil|rewrite contains_cons].
  - rewrite orb_false_r, prefix_is_append. split.
    + intros [post H]. by exists EmptyString, post.
    + intros (pre & post & H). destruct pre; [by exists post|done].
  - rewrite orb_true_iff, prefix_is_append, IH. split.
    + intros [[post H]|(pre & post & H)].
      * by exists EmptyString, post.
      * exists (String c pre), post. simpl. by rewrite H.
    + intros (pre & post & H). destruct pre as [|d pre]; simpl in H.
      * left. by exists post.
      * right. injection H as _ H. by exists pre, post.
Qed.

Lemma string_app_assoc (a b c : string) : (a +:+ b) +:+ c = a +:+ b +:+ c.
Proof.
  induction a as [|x a IH]; [done|].
  change (String x ((a +:+ b) +:+ c) = String x (a +:+ b +:+ c)). by rewrite IH.
Qed.

Lemma contains_suffix_of_needle (a b s : string) :
  Str.contains (a +:+ b) s = true → Str.contains b s = true.
Proof.
  rewrite !contains_is_infix. intros (pre & post & H).
  exists (pre +:+ a), post. rewrite H. by rewrite !string_app_assoc.
Qed.

(** ** Start-up *)

Lemma load_seen_lines_spec (lines : list json_line) (seen : gset string) (k : string) :
  k ∈ load_seen_lines lines seen
  ↔ k ∈ seen ∨ (Str.is_empty k = false ∧ In (GoodLine (Some k)) lines).
Proof.
  revert seen. induction lines as [|l lines IH]; intros seen; simpl.
  { tauto. }
  destruct l as [|[k'|]]; rewrite IH.
  - split; [|intros [?|(? & [?|?])]; [tauto|done|tauto]]. tauto.
  - destruct (Str.is_empty k') eqn:E.
    + split; [tauto|]. intros [?|(Hk & [[= ->]|?])]; [tauto|congruence|tauto].
    + rewrite elem_of_union, elem_of_singleton. split.
      * intros [[->|?]|?]; tauto.
      * intros [?|(Hk & [[= ->]|?])]; tauto.
  - split; [|intros [?|(? & [?|?])]; [tauto|done|tauto]]. tauto.
Qed.

(** X1. The start-up replay keeps exactly the keys of the lines that
    parse and carry a key of at least one character: a line that does not
    parse, a line without key and an empty key add nothing, and neither the
    order of the lines nor their repetition matters. *)
Theorem load_seen_keys_spec (lines : list json_line) (k : string) :
  k ∈ load_seen_keys lines
  ↔ Str.is_empty k = false ∧ In (GoodLine (Some k)) lines.
Proof.
  unfold load_seen_keys. rewrite load_seen_lines_spec, elem_of_empty. tauto.
Qed.

(** X2. The addresses [load_urls] returns are the stripped lines that are
    not empty and do not start with [#], and no other; in particular the
    list never holds an empty address or a comment. *)
Theorem load_urls_spec (lines : list string) (u : string) :
  In u (load_urls lines)
  ↔ ∃ l, In l lines ∧ u = str_strip l
         ∧ Str.is_empty u = false ∧ Str.startswith "#" u = false.
Proof.
  unfold load_urls. rewrite in_map_iff. split.
  - intros (l & <- & Hin). apply filter_In in Hin as (Hin & Hc).
    apply andb_true_iff in Hc as (H1 & H2).
    apply negb_true_iff in H1, H2. by exists l.
  - intros (l & Hin & -> & H1 & H2). exists l. split; [done|].
    apply filter_In. split; [done|]. by rewrite H1, H2.
Qed.

(** ** The detector *)

(** X3. The detector answers "blocked" exactly when the lower-cased
    address contains [captcha], or the text of the page can be read and,
    lower-cased, contains one of the four markers. The separate test for
    [showcaptcha] adds nothing, and an address that matches is enough even
    when the text cannot be read. *)
Theorem detect_captcha_or_block_spec (page : page_state) :
  detect_captcha_or_block page = true
  ↔ Str.contains "captcha" (str_lower (page_url page)) = true
    ∨ ∃ txt m, body_inner_text page = Some txt ∧ In m markers
               ∧ Str.contains m (str_lower txt) = true.
Proof.
  unfold detect_captcha_or_block.
  destruct (Str.contains "showcaptcha" (str_lower (page_url page))) eqn:E1.
  { cbn [orb]. split; [|done]. intros _. left.
    by apply (contains_suffix_of_needle "show" "captcha"). }
  destruct (Str.contains "captcha" (str_lower (page_url page))) eqn:E2; cbn [orb].
  { split; [by left|done]. }
  destruct (body_inner_text page) as [txt|].
  - rewrite existsb_exists. split.
    + intros (m & Hm & Hc). right. by exists txt, m.
    + intros [?|(txt' & m & [= <-] & Hm & Hc)]; [done|]. by exists m.
  - split; [done|]. by intros [?|(txt' & m & ? & _)].
Qed.


(** ** The recovery handler in headful mode *)

Lemma captcha_poll_undecided (inp : list (string * page_state)) :
  Forall (fun t => decision t = None) inp →
  captcha_poll inp = (Raise EOFError, [], repeat MsgStillCaptcha (length inp)).
Proof.
  induction inp as [|[line page] rest IH]; intros H; [done|].
  apply Forall_cons in H as [Hd Hrest]. unfold decision, command in Hd. simpl in *.
  destruct (String.eqb (str_lower (str_strip line)) "q"); [done|].
  destruct (String.eqb (str_lower (str_strip line)) "s"); [done|].
  destruct (negb (detect_captcha_or_block page)); [done|].
  by rewrite (IH Hrest).
Qed.

Lemma captcha_poll_decided (pre : list (string * page_state))
    (turn : string * page_state) (rest : list (string * page_state)) (act : action) :
  Forall (fun t => decision t = None) pre →
  decision turn = Some act →
  captcha_poll (pre ++ turn :: rest)
  = (Ok act, rest, repeat MsgStillCaptcha (length pre)).
Proof.
  intros Hpre Hd. induction pre as [|[line page] pre IH]; simpl.
  - destruct turn as [line page]. unfold decision, command in Hd. simpl in *.
    destruct (String.eqb (str_lower (str_strip line)) "q"); [by injection Hd as <-|].
    destruct (String.eqb (str_lower (str_strip line)) "s"); [by injection Hd as <-|].
    destruct (negb (detect_captcha_or_block page)); [by injection Hd as <-|done].
  - apply Forall_cons in Hpre as [Hu Hpre]. unfold decision, command in Hu. simpl in *.
    destruct (String.eqb (str_lower (str_strip line)) "q"); [done|].
    destruct (String.eqb (str_lower (str_strip line)) "s"); [done|].
    destruct (negb (detect_captcha_or_block page)); [done|].
    by rewrite (IH Hpre).
Qed.

Lemma first_decision (inp : list (string * page_state)) :
  Forall (fun t => decision t = None) inp
  ∨ ∃ pre turn rest act,
      inp = pre ++ turn :: rest
      ∧ Forall (fun t => decision t = None) pre
      ∧ decision turn = Some act.
Proof.
  induction inp as [|t inp IH]; [by left|].
  destruct (decision t) as [act|] eqn:E.
  { right. by exists [], t, inp, act. }
  destruct IH as [H|(pre & turn & rest & act & -> & Hpre & Hd)].
  - left. by constructor.
  - right. exists (t :: pre), turn, rest, act. split_and!; try done. by constructor.
Qed.

Lemma handle_headful_cases (url : string) (w : world) :
  (∃ pre turn rest act,
     stdin w = pre ++ turn :: rest
     ∧ Forall (fun t => decision t = None) pre
     ∧ decision turn = Some act
     ∧ handle_captcha_interactive url true w
       = (Ok act,
          World (seen_keys w) (out_f w) rest (clock w)
            (stdout w ++ MsgCaptchaBanner :: repeat MsgStillCaptcha (length pre))))
  ∨ (Forall (fun t => decision t = None) (stdin w)
     ∧ handle_captcha_interactive url true w
       = (Raise EOFError,
          World (seen_keys w) (out_f w) [] (clock w)
            (stdout w ++ MsgCaptchaBanner
               :: repeat MsgStillCaptcha (length (stdin w))))).
Proof.
  unfold handle_captcha_interactive, bind, print. simpl.
  destruct (first_decision (stdin w)) as [H|(pre & turn & rest & act & E & Hpre & Hd)].
  - right. split; [done|]. rewrite (captcha_poll_undecided _ H).
    by rewrite <- app_assoc.
  - left. exists pre, turn, rest, act. split_and!; try done.
    rewrite E, (captcha_poll_decided _ _ _ _ Hpre Hd). by rewrite <- app_assoc.
Qed.

(** X4. In headful mode the handler reads the operator's lines up to the
    first one that decides and no further: [q] quits, [s] skips, any other
    line continues if the page is no longer blocked at that moment. For
    each line before it the handler prints that the page is still blocked;
    the lines after it stay in the terminal. When no line decides, all are
    read and [input] raises [EOFError]. The output file, the seen-key set
    and the clock are never touched. *)
Theorem handler_reads_to_first_decision (url : string) (w : world) :
  (∃ pre turn rest act,
     stdin w = pre ++ turn :: rest
     ∧ Forall (fun t => decision t = None) pre
     ∧ decision turn = Some act
     ∧ handle_captcha_interactive url true w
       = (Ok act,
          World (seen_keys w) (out_f w) rest (clock w)
            (stdout w ++ MsgCaptchaBanner :: repeat MsgStillCaptcha (length pre))))
  ∨ (Forall (fun t => decision t = None) (stdin w)
     ∧ handle_captcha_interactive url true w
       = (Raise EOFError,
          World (seen_keys w) (out_f w) [] (clock w)
            (stdout w ++ MsgCaptchaBanner
               :: repeat MsgStillCaptcha (length (stdin w))))).
Proof. apply handle_headful_cases. Qed.

(** X5. The handler answers "continue" only in headful mode, and only
    after a line that is neither [q] nor [s], typed while the detector finds
    the page clear: it never resumes on a page that is still blocked. *)
Theorem continue_only_when_clear (url : string) (hf : bool) (w w' : world) :
  handle_captcha_interactive url hf w = (Ok ActContinue, w') →
  hf = true
  ∧ ∃ line page,
      In (line, page) (stdin w)
      ∧ detect_captcha_or_block page = false
      ∧ command line ≠ "q" ∧ command line ≠ "s".
Proof.
  destruct hf; [|by rewrite handle_captcha_headless].
  intros E. split; [done|].
  destruct (handle_headful_cases url w)
    as [(pre & [line page] & rest & act & Es & _ & Hd & Eh)|[_ Eh]];
    rewrite Eh in E; [|done].
  injection E as -> _. exists line, page. rewrite Es.
  split; [apply in_or_app; right; by left|].
  unfold decision in Hd. simpl in Hd.
  destruct (String.eqb (command line) "q") eqn:Eq; [done|].
  destruct (String.eqb (command line) "s") eqn:Esk; [done|].
  destruct (detect_captcha_or_block page); [done|].
  apply String.eqb_neq in Eq, Esk. done.
Qed.

(** ** Titles *)

Lemma before_sub_unfold (sep s : string) :
  before_sub sep s
  = if String.prefix sep s then EmptyString
    else match s with
         | EmptyString => EmptyString
         | String c rest => String c (before_sub sep rest)
         end.
Proof. by destruct s. Qed.

(** What [split] keeps is followed by the separator. *)
Lemma before_sub_split (sep s : string) :
  Str.contains sep s = true →
  ∃ post, s = before_sub sep s +:+ sep +:+ post.
Proof.
  induction s as [|c s IH]; rewrite before_sub_unfold.
  - rewrite contains_nil, orb_false_r. intros H. rewrite H.
    apply prefix_is_append in H as [post H]. by exists post.
  - rewrite contains_cons. destruct (String.prefix sep (String c s)) eqn:E.
    + intros _. apply prefix_is_append in E as [post H]. by exists post.
    + simpl. intros H. destruct (IH H) as [post Hp]. exists post.
      change (String c s = String c (before_sub sep s +:+ sep +:+ post)).
      by rewrite <- Hp.
Qed.

Lemma cleanup_from_cases (t : string) (seps : list string) :
  cleanup_from t seps = t
  ∨ ∃ sep, In sep seps
           ∧ Str.contains "яндекс" (str_lower t) = true
           ∧ Str.contains sep t = true
           ∧ cleanup_from t seps = str_strip (before_sub sep t)
           ∧ Str.is_empty (cleanup_from t seps) = false.
Proof.
  induction seps as [|sep more IH]; [by left|]. simpl.
  destruct (Str.contains "яндекс" (str_lower t)) eqn:Ey; simpl.
  2:{ destruct IH as [?|(s & Hin & ? & _)]; [by left|congruence]. }
  destruct (Str.contains sep t) eqn:Es.
  2:{ destruct IH as [?|(s & Hin & Hrest)]; [by left|]. right. exists s. tauto. }
  destruct (Str.is_empty (str_strip (before_sub sep t))) eqn:El.
  - destruct IH as [?|(s & Hin & Hrest)]; [by left|]. right. exists s. tauto.
  - right. exists sep. split_and!; try done. by left.
Qed.

(** X6. [cleanup_title] returns the stripped title, or what precedes the
    first occurrence of one of the four separators in it, stripped; it
    shortens only a title that mentions [яндекс] (in any case), and never
    to the empty string: a title that is not empty once stripped stays so. *)
Theorem cleanup_title_spec (title : string) :
  (Str.contains "яндекс" (str_lower (str_strip title)) = false →
   cleanup_title title = str_strip title)
  ∧ (cleanup_title title = str_strip title
     ∨ ∃ sep post,
         In sep title_separators
         ∧ str_strip title = before_sub sep (str_strip title) +:+ sep +:+ post
         ∧ cleanup_title title = str_strip (before_sub sep (str_strip title)))
  ∧ (Str.is_empty (str_strip title) = false →
     Str.is_empty (cleanup_title title) = false).
Proof.
  unfold cleanup_title.
  destruct (cleanup_from_cases (str_strip title) title_separators)
    as [E|(sep & Hin & Hy & Hs & E & Hne)].
  - rewrite E. split_and!; try done. by left.
  - split_and!; try done.
    + intros H. congruence.
    + right. destruct (before_sub_split _ _ Hs) as [post Hp]. by exists sep, post.
Qed.

(** ** What the script extracts *)

Lemma read_card_pos (pos : Z) (c : card) : it_pos (read_card pos c) = pos.
Proof. unfold read_card. by destruct (isEllipsisEnd (text_first c)). Qed.

Lemma js_extract_loop_bounds (m : Z) (els : list card) (ms : Z) :
  ms ≤ (js_extract_loop m els ms).2
  ∧ Forall (fun it => it_pos it ≤ (js_extract_loop m els ms).2)
      (js_extract_loop m els ms).1
  ∧ ((js_extract_loop m els ms).2 = ms
     ∨ ∃ it, In it (js_extract_loop m els ms).1
             ∧ it_pos it = (js_extract_loop m els ms).2)
  ∧ List.map it_pos (js_extract_loop m els ms).1 = omap (card_pos m) els
  ∧ (∀ c pos, In c els → card_pos m c = Some pos →
              pos ≤ (js_extract_loop m els ms).2).
Proof.
  revert ms. induction els as [|c rest IH]; intros ms; simpl.
  { split_and!; [lia|constructor|by left|done|done]. }
  destruct (card_pos m c) as [pos|] eqn:E.
  - destruct (IH (if ms <? pos then pos else ms)) as (B1 & B2 & B3 & B4 & B5).
    destruct (js_extract_loop m rest (if ms <? pos then pos else ms))
      as [items ms'] eqn:EL. simpl in *.
    split_and!.
    + destruct (ms <? pos) eqn:Hlt; lia.
    + constructor; [|done]. rewrite read_card_pos. destruct (ms <? pos) eqn:Hlt; lia.
    + destruct B3 as [B3|(it & Hin & Hit)].
      * destruct (ms <? pos) eqn:Hlt; [|by left].
        right. exists (read_card pos c). rewrite read_card_pos. split; [by left|lia].
      * right. exists it. split; [by right|done].
    + by rewrite read_card_pos, B4.
    + intros c' pos' [<-|Hin] Hc.
      * rewrite E in Hc. injection Hc as <-. destruct (ms <? pos) eqn:Hlt; lia.
      * by apply (B5 c').
  - destruct (IH ms) as (B1 & B2 & B3 & B4 & B5). split_and!; try done.
    intros c' pos' [<-|Hin] Hc; [congruence|]. by apply (B5 c').
Qed.

(** X7. What [js_extract_new] answers: one item per card whose position
    is above the watermark, in the order of the page; [maxSeen] is the
    greatest of their positions, or the watermark itself when there is
    none. So a round makes progress exactly when the script hands over at
    least one item. *)
Theorem js_extract_new_spec (els : list card) (maxPos : Z) :
  List.map it_pos (js_extract_new els maxPos).1 = omap (card_pos maxPos) els
  ∧ Forall (fun it => maxPos < it_pos it ≤ (js_extract_new els maxPos).2)
      (js_extract_new els maxPos).1
  ∧ ((js_extract_new els maxPos).1 = [] → (js_extract_new els maxPos).2 = maxPos)
  ∧ ((js_extract_new els maxPos).1 ≠ [] →
     maxPos < (js_extract_new els maxPos).2
     ∧ ∃ it, In it (js_extract_new els maxPos).1
             ∧ it_pos it = (js_extract_new els maxPos).2).
Proof.
  unfold js_extract_new.
  destruct (js_extract_loop_bounds maxPos els maxPos) as (B1 & B2 & B3 & B4 & _).
  pose proof (js_extract_loop_above maxPos els maxPos) as A.
  split_and!.
  - done.
  - rewrite Forall_forall in *. intros it Hin. split; [by apply A|by apply B2].
  - intros Hnil. destruct B3 as [?|(it & Hin & _)]; [done|]. rewrite Hnil in Hin. done.
  - intros Hne. destruct (js_extract_loop maxPos els maxPos) as [[|it items] ms] eqn:E;
      [done|]. simpl in *.
    apply Forall_cons in A as [A1 _]. apply Forall_cons in B2 as [B21 _].
    split; [lia|]. destruct B3 as [->|H]; [lia|done].
Qed.

Lemma card_pos_raise (m m' : Z) (c : card) :
  m ≤ m' → card_pos m c = None → card_pos m' c = None.
Proof.
  unfold card_pos. destruct (parseInt _) as [pos|]; [|done]. intros Hm.
  destruct ((pos =? 0) || (pos <=? m)) eqn:E; [|done]. intros _.
  assert ((pos =? 0) || (pos <=? m') = true) as ->; [lia|done].
Qed.

Lemma card_pos_covered (m m' pos : Z) (c : card) :
  card_pos m c = Some pos → pos ≤ m' → card_pos m' c = None.
Proof.
  unfold card_pos. destruct (parseInt _) as [q|]; [|done].
  destruct ((q =? 0) || (q <=? m)); [done|]. intros [= <-] H.
  assert ((q =? 0) || (q <=? m') = true) as ->; [lia|done].
Qed.

Lemma js_extract_loop_none (m : Z) (els : list card) (ms : Z) :
  (∀ c, In c els → card_pos m c = None) →
  js_extract_loop m els ms = ([], ms).
Proof.
  induction els as [|c rest IH]; intros H; [done|]. simpl.
  rewrite (H c) by by left. apply IH. intros c' Hin. apply H. by right.
Qed.

(** X8. A round that reaches its end leaves the watermark at the greatest
    position the script saw, and with that watermark the same cards yield
    no item: what a round has looked at is not looked at again. *)
Theorem round_covers_its_cards (p : params) (re : round_env) (st st' : coll_state)
    (w w' : world) (s : signal) (els : list card) :
  round_body p re st w = (Ok s, w') →
  s = Proceed st' ∨ s = Break st' →
  eval_outcome re = Ok els →
  max_pos_parsed st' = (js_extract_new els (max_pos_parsed st)).2
  ∧ js_extract_new els (max_pos_parsed st') = ([], max_pos_parsed st').
Proof.
  intros E Hs He. pose proof (round_body_counters _ _ _ _ _ _ E) as C.
  assert (counters_updated re st st') as U by (destruct Hs as [-> | ->]; tauto).
  unfold counters_updated in U. rewrite He in U. simpl in U.
  destruct (js_extract_loop_bounds (max_pos_parsed st) els (max_pos_parsed st))
    as (B1 & _ & _ & _ & B5).
  fold (js_extract_new els (max_pos_parsed st)) in B1, B5.
  assert (max_pos_parsed st' = (js_extract_new els (max_pos_parsed st)).2) as Hm.
  { destruct (max_pos_parsed st <? (js_extract_new els (max_pos_parsed st)).2) eqn:Hlt;
      destruct U as [U1 U2]; lia. }
  split; [done|]. unfold js_extract_new at 1. apply js_extract_loop_none.
  intros c Hin. destruct (card_pos (max_pos_parsed st) c) as [pos|] eqn:Ec.
  - eapply card_pos_covered; [exact Ec|]. rewrite Hm. by apply (B5 c).
  - eapply card_pos_raise; [|exact Ec]. lia.
Qed.


(** ** A relation kept by the whole loop *)

Lemma emit_item_cases (p : params) (st : coll_state) (it : item) (w : world) :
  (Str.is_empty (str_strip (it_text it)) = true
   ∧ emit_item p st it w = (Ok (Proceed st), w))
  ∨ (Str.is_empty (str_strip (it_text it)) = false
     ∧ derive_key (p_org_id p) (it_author_id it) (it_date_iso it) (it_rating_raw it)
         (str_strip (it_text it)) ∈ seen_keys w
     ∧ emit_item p st it w = (Ok (Proceed (noted st it)), w))
  ∨ (writable p it w
     ∧ emit_item p st it w
       = if cap_reached p (counted st it)
         then (Ok (Return (counted st it)),
               after_flush (after_write w (row_of p it w)))
         else (Ok (Proceed (counted st it)), after_write w (row_of p it w))).
Proof.
  destruct (Str.is_empty (str_strip (it_text it))) eqn:Et.
  { left. split; [done|]. unfold emit_item. by rewrite Et. }
  destruct (decide (derive_key (p_org_id p) (it_author_id it) (it_date_iso it)
                      (it_rating_raw it) (str_strip (it_text it)) ∈ seen_keys w))
    as [Hin|Hout].
  - right. left. split_and!; try done. unfold emit_item. rewrite Et.
    unfold bind, seen_mem. by rewrite bool_decide_eq_true_2.
  - right. right. split; [done|]. by apply emit_item_writable.
Qed.

Section Kept.
Variable p : params.
Variable R : world → world → list Row → Prop.
Hypothesis R_refl : ∀ w, R w w [].
Hypothesis R_trans :
  ∀ w w1 w2 n1 n2, R w w1 n1 → R w1 w2 n2 → R w w2 (n1 ++ n2).
Hypothesis R_write :
  ∀ it w, writable p it w → R w (after_write w (row_of p it w)) [row_of p it w].
Hypothesis R_flush : ∀ w, R w (after_flush w) [].
Hypothesis R_handle :
  ∀ w r w',
    handle_captcha_interactive (p_source_url p) (headful p) w = (r, w') → R w w' [].

Lemma emit_item_kept (st : coll_state) (it : item) (w w' : world) (r : result signal) :
  emit_item p st it w = (r, w') → ∃ new, R w w' new.
Proof.
  destruct (emit_item_cases p st it w) as [[_ E]|[(_ & _ & E)|[Hw E]]]; rewrite E.
  - intros [= <- <-]. by exists [].
  - intros [= <- <-]. by exists [].
  - destruct (cap_reached p (counted st it)); intros [= <- <-].
    + exists ([row_of p it w] ++ []). eapply R_trans; [by apply R_write|apply R_flush].
    + exists [row_of p it w]. by apply R_write.
Qed.

Lemma emit_items_kept (items : list item) (st : coll_state) (w w' : world)
    (r : result signal) :
  emit_items p items st w = (r, w') → ∃ new, R w w' new.
Proof.
  revert st w. induction items as [|it rest IH]; intros st w.
  { intros [= <- <-]. by exists []. }
  simpl. unfold bind at 1.
  destruct (emit_item p st it w) as [[s|e] w1] eqn:E1;
    apply emit_item_kept in E1 as [n1 R1].
  - destruct s as [st1|st1|st1].
    + intros E2. apply IH in E2 as [n2 R2]. exists (n1 ++ n2). by eapply R_trans.
    + intros [= <- <-]. by exists n1.
    + intros [= <- <-]. by exists n1.
  - intros [= <- <-]. by exists n1.
Qed.

Lemma blocked_exit_kept (re : round_env) (w w' : world) (r : result bool) :
  blocked_exit p re w = (r, w') → ∃ new, R w w' new.
Proof.
  unfold blocked_exit. destruct (detect_captcha_or_block (round_page re)).
  - unfold bind.
    destruct (handle_captcha_interactive (p_source_url p) (headful p) w)
      as [[act|e] w1] eqn:E; apply R_handle in E.
    + destruct act; intros [= <- <-]; by exists [].
    + intros [= <- <-]. by exists [].
  - intros [= <- <-]. by exists [].
Qed.

Lemma decide_stop_same (re : round_env) (st : coll_state) (w w' : world)
    (r : result signal) :
  decide_stop p re st w = (r, w') → w' = w.
Proof.
  destruct (decide_stop_cases p re st w) as [[_ D]|[_ [[_ D]|[e [_ D]]]]];
    rewrite D; by intros [= <- <-].
Qed.

Lemma round_body_kept (re : round_env) (st : coll_state) (w w' : world)
    (r : result signal) :
  round_body p re st w = (r, w') → ∃ new, R w w' new.
Proof.
  unfold round_body. unfold bind at 1.
  destruct (blocked_exit p re w) as [[leave|e] w0] eqn:EB;
    apply blocked_exit_kept in EB as [n0 R0].
  2:{ intros [= <- <-]. by exists n0. }
  destruct leave; [intros [= <- <-]; by exists n0|].
  destruct (eval_outcome re) as [els|e].
  - destruct (js_extract_new els (max_pos_parsed st)) as [items max_seen].
    unfold bind at 1.
    destruct (emit_items p items st w0) as [[s|e] w1] eqn:E1;
      apply emit_items_kept in E1 as [n1 R1].
    + destruct s as [st1|st1|st1].
      * unfold bind. change (out_flush w1) with (Ok tt, after_flush w1). cbv beta iota.
        intros D. apply decide_stop_same in D as ->.
        exists (n0 ++ n1 ++ []). eapply R_trans; [exact R0|].
        eapply R_trans; [exact R1|apply R_flush].
      * intros [= <- <-]. exists (n0 ++ n1). by eapply R_trans.
      * intros [= <- <-]. exists (n0 ++ n1). by eapply R_trans.
    + intros [= <- <-]. exists (n0 ++ n1). by eapply R_trans.
  - destruct e; try (intros [= <- <-]; by exists n0).
    intros D. apply decide_stop_same in D as ->. by exists n0.
Qed.

Lemma rounds_from_kept (fuel idx : nat) (surface : nat → round_env)
    (st : coll_state) (w w' : world) (r : result coll_state) :
  rounds_from fuel idx p surface st w = (r, w') → ∃ new, R w w' new.
Proof.
  revert idx st w. induction fuel as [|fuel IH]; intros idx st w.
  { intros [= <- <-]. by exists []. }
  simpl. unfold bind at 1.
  destruct (round_body p (surface idx) st w) as [[s|e] w1] eqn:E1;
    apply round_body_kept in E1 as [n1 R1].
  - destruct s as [st1|st1|st1].
    + intros E2. apply IH in E2 as [n2 R2]. exists (n1 ++ n2). by eapply R_trans.
    + intros [= <- <-]. by exists n1.
    + intros [= <- <-]. by exists n1.
  - intros [= <- <-]. by exists n1.
Qed.

Lemma stream_scroll_collect_kept (surface : nat → round_env) (w w' : world)
    (r : result Z) :
  stream_scroll_collect p surface w = (r, w') → ∃ new, R w w' new.
Proof.
  unfold stream_scroll_collect, collect, bind.
  destruct (rounds_from _ _ _ _ _ w) as [[st|e] w1] eqn:E;
    apply rounds_from_kept in E; by intros [= <- <-].
Qed.

End Kept.


(** ** Rows, clock readings, terminal and messages *)

Lemma map_seq_shift (f : nat → Z) (a n : nat) :
  List.map f (seq a n) = List.map (fun j => f (a + j)%nat) (seq 0 n).
Proof.
  revert f a. induction n as [|n IH]; intros f a; [done|]. simpl.
  rewrite Nat.add_0_r. f_equal.
  rewrite (IH f (S a)), (IH (fun j => f (a + j)%nat) 1%nat).
  apply map_ext. intros j. f_equal. lia.
Qed.

Ltac frame_goal :=
  first
    [ done
    | by exists []
    | by (exists []; rewrite app_nil_r)
    | by (unfold rows_of, written_rows; simpl; rewrite ?app_nil_r, ?app_assoc) ].

Lemma advances_refl (hf : bool) (P : Row → Prop) (Q : message → Prop) (w : world) :
  advances hf P Q w w [].
Proof. split; frame_goal. Qed.

Lemma advances_said (hf : bool) (P : Row → Prop) (Q : message → Prop)
    (w : world) (said : list message) :
  Forall Q said → advances hf P Q w (say said w) [].
Proof.
  intros HQ. split; try frame_goal. by exists said.
Qed.

Lemma advances_trans (hf : bool) (P : Row → Prop) (Q : message → Prop)
    (w w1 w2 : world) (n1 n2 : list Row) :
  advances hf P Q w w1 n1 → advances hf P Q w1 w2 n2 →
  advances hf P Q w w2 (n1 ++ n2).
Proof.
  intros [R1 P1 C1 T1 [u1 I1] H1 [s1 [O1 Q1]]] [R2 P2 C2 T2 [u2 I2] H2 [s2 [O2 Q2]]].
  split.
  - by rewrite R2, R1, app_assoc.
  - by apply Forall_app.
  - intros k. rewrite C2, C1, length_app. f_equal. lia.
  - rewrite map_app, length_app, seq_app, map_app, T1, T2. f_equal. simpl.
    rewrite (map_seq_shift (clock w)). apply map_ext. intros j.
    rewrite C1. f_equal; lia.
  - exists (u1 ++ u2). by rewrite I1, I2, app_assoc.
  - intros Hh. by rewrite (H2 Hh), (H1 Hh).
  - exists (s1 ++ s2). split; [by rewrite O2, O1, app_assoc|by apply Forall_app].
Qed.

Lemma advances_weaken (hf : bool) (P P' : Row → Prop) (Q Q' : message → Prop)
    (w w' : world) (new : list Row) :
  (∀ r, P r → P' r) → (∀ m, Q m → Q' m) →
  advances hf P Q w w' new → advances hf P' Q' w w' new.
Proof.
  intros HP HQ [R1 P1 C1 T1 I1 H1 [s1 [O1 Q1]]]. split; try done.
  - eapply Forall_impl; [exact P1|done].
  - exists s1. split; [done|]. eapply Forall_impl; [exact Q1|done].
Qed.

Lemma advances_write (hf : bool) (Q : message → Prop) (p : params) (it : item)
    (w : world) :
  writable p it w →
  advances hf (made_by p) Q w (after_write w (row_of p it w)) [row_of p it w].
Proof.
  intros [Ht _]. split; try frame_goal.
  constructor; [|done]. by exists it, (clock w O).
Qed.

Lemma advances_flush (hf : bool) (P : Row → Prop) (Q : message → Prop) (w : world) :
  advances hf P Q w (after_flush w) [].
Proof. split; frame_goal. Qed.

Lemma captcha_poll_msgs (inp : list (string * page_state)) :
  Forall is_captcha_msg (captcha_poll inp).2.
Proof.
  induction inp as [|[line page] rest IH]; [done|]. simpl.
  destruct (String.eqb (str_lower (str_strip line)) "q"); [done|].
  destruct (String.eqb (str_lower (str_strip line)) "s"); [done|].
  destruct (negb (detect_captcha_or_block page)); [done|].
  destruct (captcha_poll rest) as [[r rest'] msgs]. simpl in *. by constructor.
Qed.

Lemma advances_handle (P : Row → Prop) (url : string) (hf : bool) (w w' : world)
    (r : result action) :
  handle_captcha_interactive url hf w = (r, w') →
  advances hf P is_captcha_msg w w' [].
Proof.
  destruct hf.
  - unfold handle_captcha_interactive, bind, print. simpl.
    pose proof (captcha_poll_suffix (stdin w)) as [used Hu].
    pose proof (captcha_poll_msgs (stdin w)) as Hm.
    destruct (captcha_poll (stdin w)) as [[r0 rest] msgs]. simpl in *.
    intros [= <- <-]. split; try frame_goal.
    + by exists used.
    + exists (MsgCaptchaBanner :: msgs). split; [by rewrite <- app_assoc|].
      by constructor.
  - rewrite handle_captcha_headless. intros [= <- <-].
    apply (advances_said false P is_captcha_msg w [MsgCaptchaHeadless url]).
    by constructor.
Qed.

Lemma stream_scroll_collect_advances (p : params) (surface : nat → round_env)
    (w w' : world) (r : result Z) :
  stream_scroll_collect p surface w = (r, w') →
  ∃ new, advances (headful p) (made_by p) is_captcha_msg w w' new.
Proof.
  apply (stream_scroll_collect_kept p
           (advances (headful p) (made_by p) is_captcha_msg)).
  - apply advances_refl.
  - apply advances_trans.
  - intros it w0. apply advances_write.
  - apply advances_flush.
  - intros w0 r0 w0'. apply advances_handle.
Qed.

Lemma made_by_wellformed (urls : list string) (url name : string)
    (mr npl mrv : Z) (hf : bool) (r : Row) :
  In url urls →
  made_by (Params (org_of_url url) name url mr npl mrv hf) r →
  row_wellformed urls r.
Proof.
  intros Hin (it & now & -> & Ht). by split_and!.
Qed.

Lemma scrape_place_advances (urls : list string) (a : args) (idx : Z) (url : string)
    (env : source_env) (w w' : world) (r : result loop_ctl) :
  In url urls →
  scrape_place a idx url env w = (r, w') →
  ∃ new, advances (a_headful a) (row_wellformed urls) (fun _ => True) w w' new.
Proof.
  intros Hin. unfold scrape_place.
  destruct (falsy (found_scroll_sel env) || falsy (found_card_sel env)).
  { intros [= <- <-]. exists [].
    by apply (advances_said _ _ _ w [MsgNotFound idx url]), Forall_forall. }
  unfold bind at 1. unfold surface_call.
  destruct (ready_outcome env) as [[]|e];
    [|intros [= <- <-]; exists []; apply advances_refl].
  unfold ret at 1. unfold bind at 1.
  match goal with |- context [stream_scroll_collect ?q ?s w] =>
    destruct (stream_scroll_collect q s w) as [[n|e] w1] eqn:E;
    apply stream_scroll_collect_advances in E as [new A]
  end.
  - intros [= <- <-]. exists (new ++ []). eapply advances_trans.
    + eapply advances_weaken; [| |exact A]; [|done].
      intros r0. by apply made_by_wellformed.
    + by apply (advances_said _ _ _ w1 [MsgWritten idx url n]), Forall_forall.
  - intros [= <- <-]. exists new.
    eapply advances_weaken; [| |exact A]; [|done].
    intros r0. by apply made_by_wellformed.
Qed.

Lemma visit_advances (urls : list string) (a : args) (idx : Z) (url : string)
    (env : source_env) (w w' : world) (r : result loop_ctl) :
  In url urls →
  visit a idx url env w = (r, w') →
  ∃ new, advances (a_headful a) (row_wellformed urls) (fun _ => True) w w' new.
Proof.
  intros Hin. unfold visit. unfold bind at 1. unfold surface_call.
  destruct (goto_outcome env) as [[]|e];
    [|intros [= <- <-]; exists []; apply advances_refl].
  unfold ret at 1.
  destruct (detect_captcha_or_block (nav_page env));
    [|by apply scrape_place_advances].
  unfold bind at 1.
  destruct (handle_captcha_interactive url (a_headful a) w) as [[act|e] w1] eqn:E;
    apply (advances_handle (row_wellformed urls)) in E;
    apply (advances_weaken _ _ (row_wellformed urls) _ (fun _ => True)) in E;
    try done.
  - destruct act.
    + intros [= <- <-]. exists ([] ++ []). eapply advances_trans; [exact E|].
      by apply (advances_said _ _ _ w1 [MsgQuit]), Forall_forall.
    + intros [= <- <-]. exists ([] ++ []). eapply advances_trans; [exact E|].
      by apply (advances_said _ _ _ w1 [MsgSkipCaptcha idx url]), Forall_forall.
    + intros E2. apply (scrape_place_advances urls) in E2 as [new A]; [|done].
      exists ([] ++ new). by eapply advances_trans.
  - intros [= <- <-]. by exists [].
Qed.

Lemma visit_guarded_advances (urls : list string) (a : args) (idx : Z) (url : string)
    (env : source_env) (w w' : world) (c : loop_ctl) :
  In url urls →
  visit_guarded a idx url env w = (c, w') →
  ∃ new, advances (a_headful a) (row_wellformed urls) (fun _ => True) w w' new.
Proof.
  intros Hin. unfold visit_guarded.
  destruct (visit a idx url env w) as [[c1|e] w1] eqn:E;
    apply (visit_advances urls) in E as [new A]; try done.
  - intros [= <- <-]. by exists new.
  - destruct e; intros [= <- <-]; exists (new ++ []);
      (eapply advances_trans; [exact A|]);
      by apply (advances_said _ _ _ w1 [_]), Forall_forall.
Qed.

Lemma main_loop_advances (urls : list string) (a : args) (k : nat) (us : list string)
    (surface : nat → source_env) (w : world) :
  (∀ u, In u us → In u urls) →
  ∃ new, advances (a_headful a) (row_wellformed urls) (fun _ => True)
           w (main_loop a k us surface w) new.
Proof.
  revert k w. induction us as [|url rest IH]; intros k w Hus.
  { exists []. apply advances_refl. }
  simpl.
  destruct (visit_guarded a (Z.of_nat k + 1) url (surface k) w) as [[] w1] eqn:E;
    apply (visit_guarded_advances urls) in E as [n1 A1]; try (apply Hus; by left).
  - destruct (IH (S k) w1) as [n2 A2]; [intros u Hu; apply Hus; by right|].
    exists (n1 ++ n2). by eapply advances_trans.
  - by exists n1.
Qed.

Lemma main_advances (a : args) (url_lines : list string) (existing : list json_line)
    (operator : list (string * page_state)) (time_time : nat → Z)
    (surface : nat → source_env) :
  ∃ new,
    advances (a_headful a) (row_wellformed (load_urls url_lines)) (fun _ => True)
      (World (load_seen_keys existing) (OutFile [] []) operator time_time [])
      (main a url_lines existing operator time_time surface) new.
Proof.
  unfold main.
  set (w0 := World (load_seen_keys existing) (OutFile [] []) operator time_time []).
  destruct (main_loop_advances (load_urls url_lines) a 0 (load_urls url_lines)
              surface w0) as [new A]; [done|].
  exists ((new ++ []) ++ []). eapply advances_trans.
  - eapply advances_trans; [exact A|apply advances_flush].
  - by apply (advances_said _ _ _ _ [MsgDone]), Forall_forall.
Qed.

(** X9. No record of a run is empty or foreign: each one has a text of at
    least one character, comes from one of the addresses the run was given,
    has the [org_id] that [main] derives from that address ([unknown] when
    the address has none), the date cut from its raw timestamp, the rating
    parsed from its raw rating token, and the key derived from its fields. *)
Theorem run_rows_wellformed (a : args) (url_lines : list string)
    (existing : list json_line) (operator : list (string * page_state))
    (time_time : nat → Z) (surface : nat → source_env) (r : Row) :
  In r (rows_of (main a url_lines existing operator time_time surface)) →
  row_wellformed (load_urls url_lines) r.
Proof.
  destruct (main_advances a url_lines existing operator time_time surface)
    as [new [R P _ _ _ _ _]].
  rewrite R. change (rows_of _ ++ new) with new.
  rewrite Forall_forall in P. intros Hin. apply P. by apply list_elem_of_In.
Qed.

(** X10. The clock is read once per record written and at no other time:
    the record of rank [i] in the output of a run carries the reading of
    rank [i] of the clock as its [scraped_at_unix]. *)
Theorem run_reads_clock_once_per_row (a : args) (url_lines : list string)
    (existing : list json_line) (operator : list (string * page_state))
    (time_time : nat → Z) (surface : nat → source_env) :
  List.map scraped_at_unix (rows_of (main a url_lines existing operator time_time surface))
  = List.map time_time
      (seq 0 (length (rows_of (main a url_lines existing operator time_time surface))))
  ∧ ∀ k, clock (main a url_lines existing operator time_time surface) k
         = time_time
             (length (rows_of (main a url_lines existing operator time_time surface))
              + k)%nat.
Proof.
  destruct (main_advances a url_lines existing operator time_time surface)
    as [new [R _ C T _ _ _]].
  rewrite R. change (rows_of _ ++ new) with new. by split.
Qed.

(** X11. A headless run never reads the terminal: whatever the surface
    does, the lines the operator could type are all still there when the
    run ends. In any mode the lines are read from the front only. *)
Theorem headless_run_leaves_terminal (a : args) (url_lines : list string)
    (existing : list json_line) (operator : list (string * page_state))
    (time_time : nat → Z) (surface : nat → source_env) :
  (a_headful a = false →
   stdin (main a url_lines existing operator time_time surface) = operator)
  ∧ ∃ used,
      operator = used ++ stdin (main a url_lines existing operator time_time surface).
Proof.
  destruct (main_advances a url_lines existing operator time_time surface)
    as [new [_ _ _ _ I H _]].
  split; [exact H|exact I].
Qed.


(** ** What the run prints for an address *)




(** ** Nothing is lost *)

(** X13. The output only grows. Whatever ends the visit of an address -
    a count, a skip, a time-out, an error, a quit or an interrupt - the
    records written before are still there, in the same order, what had
    reached the file is still in the file, the seen-key set has lost no
    key, and if everything was flushed before the visit, everything is
    flushed after it. The same holds for the loop over the addresses. *)
Theorem output_only_grows (a : args) (surface : nat → source_env) (w : world) :
  (∀ (idx : Z) (url : string) (env : source_env) (c : loop_ctl) (w' : world),
     visit_guarded a idx url env w = (c, w') →
     rows_of w `prefix_of` rows_of w'
     ∧ flushed (out_f w) `prefix_of` flushed (out_f w')
     ∧ seen_keys w ⊆ seen_keys w'
     ∧ (all_flushed w → all_flushed w'))
  ∧ (∀ (k : nat) (urls : list string),
       rows_of w `prefix_of` rows_of (main_loop a k urls surface w)
       ∧ flushed (out_f w) `prefix_of` flushed (out_f (main_loop a k urls surface w))
       ∧ seen_keys w ⊆ seen_keys (main_loop a k urls surface w)
       ∧ (all_flushed w → all_flushed (main_loop a k urls surface w))).
Proof.
  assert (∀ w', extends w w' →
            rows_of w `prefix_of` rows_of w'
            ∧ flushed (out_f w) `prefix_of` flushed (out_f w')
            ∧ seen_keys w ⊆ seen_keys w'
            ∧ (all_flushed w → all_flushed w')) as X.
  { intros w' (new & [R F S _ _ _] & Fl). split_and!; try done.
    - by exists new.
    - intros k Hk. apply S. by left. }
  split.
  - intros idx url env c w' E. apply X. by eapply visit_guarded_extends.
  - intros k urls. apply X. apply main_loop_extends.
Qed.

(** ** Edges of the round loop *)

(** X14. With a round budget of zero or less the loop body never runs:
    the call returns 0 at once and leaves everything as it was - no
    detection, no extraction, no scroll, and nothing printed but the
    [debug] line, which the model leaves out. *)
Theorem no_rounds_no_effect (p : params) (surface : nat → round_env) (w : world) :
  max_rounds p ≤ 0 →
  stream_scroll_collect p surface w = (Ok 0, w).
Proof.
  intros H. unfold stream_scroll_collect, collect, bind.
  by replace (Z.to_nat (max_rounds p)) with 0%nat by lia.
Qed.

(** X15. With a stall limit of zero or less the loop stops after its first
    round, even when that round advanced the watermark: the call depends on
    the first round of the surface only. *)
Theorem zero_stall_limit_one_round (p : params) (s1 s2 : nat → round_env) (w : world) :
  no_progress_limit p ≤ 0 →
  s1 O = s2 O →
  stream_scroll_collect p s1 w = stream_scroll_collect p s2 w.
Proof.
  intros Hl H0. unfold stream_scroll_collect, collect, bind.
  destruct (Z.to_nat (max_rounds p)) as [|fuel]; [done|].
  simpl. unfold bind. rewrite H0.
  destruct (round_body p (s2 O) init_state w) as [[[st1|st1|st1]|e] w1] eqn:E; try done.
  apply round_body_counters in E as [C L]. exfalso.
  unfold counters_updated in C. simpl in C.
  destruct (eval_outcome (s2 O)) as [els|e].
  - destruct (0 <? (js_extract_new els 0).2); destruct C as [_ C]; lia.
  - destruct C as [_ C]. lia.
Qed.

Lemma timeout_rounds (fuel idx : nat) (p : params) (surface : nat → round_env)
    (st : coll_state) (w : world) :
  (∀ i, timeout_round (surface i)) →
  ∃ st', rounds_from fuel idx p surface st w = (Ok st', w)
         ∧ total_written st' = total_written st.
Proof.
  intros H. revert idx st. induction fuel as [|fuel IH]; intros idx st.
  { by exists st. }
  destruct (H idx) as (Hd & He & Hs).
  simpl. unfold bind at 1. unfold round_body, bind, blocked_exit. rewrite Hd.
  unfold ret at 1. rewrite He.
  destruct (decide_stop_cases p (surface idx) (bump_no_progress st) w)
    as [[_ D]|[_ [[_ D]|[e [Hr D]]]]]; rewrite D.
  - by exists (bump_no_progress st).
  - destruct (IH (S idx) (bump_no_progress st)) as (st' & E & T). by exists st'.
  - by rewrite Hs in Hr.
Qed.

(** X16. Time-outs of the extraction are stalls, never failures: on a
    surface where every extraction times out, the call returns 0 without
    raising and leaves the shared state as it was ([debug] lines apart,
    which the model leaves out). *)
Theorem timeouts_end_quietly (p : params) (surface : nat → round_env) (w : world) :
  (∀ i, timeout_round (surface i)) →
  stream_scroll_collect p surface w = (Ok 0, w).
Proof.
  intros H. unfold stream_scroll_collect, collect, bind.
  destruct (timeout_rounds (Z.to_nat (max_rounds p)) 0 p surface init_state w H)
    as (st' & -> & T).
  unfold ret. by rewrite T.
Qed.


(** ** Running again on the output of a run *)

Lemma grows_seen_subset (w w' : world) (new : list Row) :
  grows w w' new → seen_keys w ⊆ seen_keys w'.
Proof. intros [_ _ S _ _ _] k Hk. apply S. by left. Qed.

Lemma handle_by_stdin (url : string) (hf : bool) (w1 w2 : world) :
  stdin w2 = stdin w1 →
  (handle_captcha_interactive url hf w2).1 = (handle_captcha_interactive url hf w1).1
  ∧ stdin (handle_captcha_interactive url hf w2).2
    = stdin (handle_captcha_interactive url hf w1).2.
Proof.
  intros H. destruct hf; [|by rewrite !handle_captcha_headless].
  unfold handle_captcha_interactive, bind, print. simpl. rewrite H.
  by destruct (captcha_poll (stdin w1)) as [[r rest] msgs].
Qed.

Lemma blocked_exit_by_stdin (p : params) (re : round_env) (w1 w2 : world) :
  stdin w2 = stdin w1 →
  (blocked_exit p re w2).1 = (blocked_exit p re w1).1
  ∧ stdin (blocked_exit p re w2).2 = stdin (blocked_exit p re w1).2.
Proof.
  intros H. unfold blocked_exit.
  destruct (detect_captcha_or_block (round_page re)); [|done].
  unfold bind.
  destruct (handle_by_stdin (p_source_url p) (headful p) w1 w2 H) as [Hr Hs].
  destruct (handle_captcha_interactive (p_source_url p) (headful p) w1) as [r1 w1'].
  destruct (handle_captcha_interactive (p_source_url p) (headful p) w2) as [r2 w2'].
  simpl in *. subst r2. destruct r1 as [[]|e]; done.
Qed.

(** With no cap, every item with text that the item loop has looked at has
    its key in the seen-key set afterwards. *)
Lemma emit_items_marks (p : params) (items : list item) (st : coll_state)
    (w w' : world) (r : result signal) :
  max_reviews p ≤ 0 →
  emit_items p items st w = (r, w') →
  ∀ it, In it items →
        Str.is_empty (str_strip (it_text it)) = false →
        derive_key (p_org_id p) (it_author_id it) (it_date_iso it) (it_rating_raw it)
          (str_strip (it_text it)) ∈ seen_keys w'.
Proof.
  intros Hcap. revert st w. induction items as [|it0 rest IH]; intros st w E it Hin Ht.
  { destruct Hin. }
  simpl in E. unfold bind at 1 in E.
  assert (∀ st1 w1, emit_items p rest st1 w1 = (r, w') → seen_keys w1 ⊆ seen_keys w')
    as Mono.
  { intros st1 w1 E1.
    destruct (emit_items_spec p rest st1 w1) as (s & w2 & n & E2 & G & _).
    rewrite E1 in E2. injection E2 as _ <-. by eapply grows_seen_subset. }
  assert (cap_reached p (counted st it0) = false) as Hc.
  { unfold cap_reached. lia. }
  destruct (emit_item_cases p st it0 w) as [[He E0]|[(_ & Hk & E0)|[Hw E0]]];
    rewrite E0 in E; try rewrite Hc in E.
  - destruct Hin as [<-|Hin]; [congruence|]. by eapply IH.
  - destruct Hin as [<-|Hin]; [by eapply Mono|]. by eapply IH.
  - destruct Hin as [<-|Hin]; [|by eapply IH].
    eapply Mono; [exact E|]. simpl. apply elem_of_union. left.
    by apply elem_of_singleton.
Qed.

(** Items whose keys are all known are looked at and not written. *)
Lemma emit_items_all_seen (p : params) (items : list item) (st : coll_state)
    (w : world) :
  (∀ it, In it items →
         Str.is_empty (str_strip (it_text it)) = false →
         derive_key (p_org_id p) (it_author_id it) (it_date_iso it) (it_rating_raw it)
           (str_strip (it_text it)) ∈ seen_keys w) →
  ∃ st', emit_items p items st w = (Ok (Proceed st'), w)
         ∧ same_progress st st'
         ∧ total_written st' = total_written st.
Proof.
  revert st. induction items as [|it rest IH]; intros st H.
  { by exists st. }
  simpl. unfold bind at 1.
  destruct (emit_item_cases p st it w) as [[He E0]|[(Ht & Hk & E0)|[[Ht Hk] _]]].
  - rewrite E0.
    destruct (IH st (λ it' Hi, H it' (or_intror Hi))) as (st' & E & S & T).
    by exists st'.
  - rewrite E0.
    destruct (IH (noted st it) (λ it' Hi, H it' (or_intror Hi))) as (st' & E & S & T).
    exists st'. split; [done|]. split; [|done].
    destruct S as [S1 S2]. by split.
  - exfalso. apply Hk. apply H; [by left|done].
Qed.

Lemma advance_watermark_same (max_seen : Z) (st1 st2 : coll_state) :
  same_progress st1 st2 →
  same_progress (advance_watermark max_seen st1) (advance_watermark max_seen st2)
  ∧ total_written (advance_watermark max_seen st2) = total_written st2.
Proof.
  intros [M N]. unfold advance_watermark. rewrite M.
  destruct (max_pos_parsed st2 <? max_seen); unfold same_progress; simpl;
    split_and!; try done; lia.
Qed.

Lemma decide_stop_rerun (p : params) (re : round_env) (sa sb st2 : coll_state)
    (wa wa' wb : world) (ra : result signal) :
  same_progress sa sb →
  total_written sb = total_written st2 →
  decide_stop p re sa wa = (ra, wa') →
  wa' = wa
  ∧ ∃ rb, decide_stop p re sb wb = (rb, wb)
          ∧ rerun_result (rerun_signal st2) ra rb.
Proof.
  intros [M N] T E.
  destruct (decide_stop_cases p re sa wa) as [[La Da]|[La [[Sa Da]|[e [Sa Da]]]]];
    rewrite Da in E; injection E as <- <-; (split; [done|]);
    destruct (decide_stop_cases p re sb wb) as [[Lb Db]|[Lb [[Sb Db]|[e' [Sb Db]]]]];
    try lia; try congruence; rewrite Db; eexists; (split; [reflexivity|]);
    simpl; try done.
  congruence.
Qed.

Lemma round_body_rerun (p : params) (re : round_env) (st1 st2 : coll_state)
    (w1 w1' w2 : world) (r1 : result signal) :
  max_reviews p ≤ 0 →
  same_progress st1 st2 →
  stdin w2 = stdin w1 →
  round_body p re st1 w1 = (r1, w1') →
  seen_keys w1' ⊆ seen_keys w2 →
  ∃ r2 w2',
    round_body p re st2 w2 = (r2, w2')
    ∧ rows_of w2' = rows_of w2 ∧ seen_keys w2' = seen_keys w2
    ∧ stdin w2' = stdin w1'
    ∧ rerun_result (rerun_signal st2) r1 r2.
Proof.
  intros Hcap Hsp Hin E1 Hsub.
  destruct (blocked_exit_by_stdin p re w1 w2 Hin) as [Hb Hs].
  unfold round_body in *. unfold bind at 1 in E1. unfold bind at 1.
  destruct (blocked_exit p re w1) as [b1 w1a] eqn:B1.
  destruct (blocked_exit p re w2) as [b2 w2a] eqn:B2.
  simpl in Hb, Hs. subst b2.
  apply blocked_exit_frame in B1 as (S1 & O1 & _).
  apply blocked_exit_frame in B2 as (S2 & O2 & _).
  assert (rows_of w2a = rows_of w2) as R2 by (unfold rows_of; by rewrite O2).
  destruct b1 as [[|]|e].
  - injection E1 as <- <-. by exists (Ok (Return st2)), w2a.
  - destruct (eval_outcome re) as [els|e].
    + destruct Hsp as [M N]. rewrite M in E1.
      destruct (js_extract_new els (max_pos_parsed st2)) as [items max_seen].
      unfold bind at 1 in E1. unfold bind at 1.
      destruct (emit_items_spec p items st1 w1a) as (s & w1b & new & Eb & G & I1 & _ & P).
      destruct (emit_items_unlimited p items st1 w1a Hcap) as (st1b & w1b' & Eb').
      rewrite Eb in Eb'. injection Eb' as -> <-.
      destruct P as (PM & PN & _). simpl in PM, PN.
      rewrite Eb in E1. unfold bind in E1.
      change (out_flush w1b) with (Ok tt, after_flush w1b) in E1. cbv beta iota in E1.
      pose proof (emit_items_marks p items st1 w1a w1b _ Hcap Eb) as Marks.
      destruct (emit_items_all_seen p items st2 w2a) as (st2b & E2 & [M2 N2] & T2).
      { intros it Hi Ht. rewrite S2. apply Hsub.
        destruct (decide_stop_rerun p re _ (advance_watermark max_seen st1b)
                    (advance_watermark max_seen st1b)
                    _ _ w2a _ (conj eq_refl eq_refl) eq_refl E1) as [-> _].
        simpl. by apply Marks. }
      rewrite E2. unfold bind.
      change (out_flush w2a) with (Ok tt, after_flush w2a). cbv beta iota.
      destruct (advance_watermark_same max_seen st1b st2b) as [A1 A2].
      { split; congruence. }
      destruct (decide_stop_rerun p re _ _ st2 _ _ (after_flush w2a) _ A1
                  (eq_trans A2 T2) E1) as [-> (rb & D2 & Rel)].
      exists rb, (after_flush w2a). split; [done|]. simpl.
      split_and!; try done.
      * unfold rows_of in *. simpl. unfold written_rows in *. simpl.
        rewrite app_nil_r. by rewrite O2.
      * congruence.
    + destruct e.
      2-4: (injection E1 as <- <-; eexists (Raise _), w2a; by split_and!).
      assert (same_progress (bump_no_progress st1) (bump_no_progress st2)) as B.
      { destruct Hsp as [M N]. split; simpl; congruence. }
      destruct (decide_stop_rerun p re _ _ st2 _ _ w2a _ B eq_refl E1)
        as [-> (rb & D2 & Rel)].
      by exists rb, w2a.
  - injection E1 as <- <-. by exists (Raise e), w2a.
Qed.

Lemma rounds_from_rerun (fuel idx : nat) (p : params) (surface : nat → round_env)
    (st1 st2 st0 : coll_state) (w1 w1' w2 : world) (r1 : result coll_state) :
  max_reviews p ≤ 0 →
  same_progress st1 st2 →
  total_written st2 = total_written st0 →
  stdin w2 = stdin w1 →
  rounds_from fuel idx p surface st1 w1 = (r1, w1') →
  seen_keys w1' ⊆ seen_keys w2 →
  ∃ r2 w2',
    rounds_from fuel idx p surface st2 w2 = (r2, w2')
    ∧ rows_of w2' = rows_of w2 ∧ seen_keys w2' = seen_keys w2
    ∧ stdin w2' = stdin w1'
    ∧ rerun_result (λ _ b, total_written b = total_written st0) r1 r2.
Proof.
  intros Hcap. revert idx st1 st2 w1 w2.
  induction fuel as [|fuel IH]; intros idx st1 st2 w1 w2 Hsp T Hin E1 Hsub.
  { injection E1 as <- <-. by exists (Ok st2), w2. }
  simpl in *. unfold bind at 1 in E1. unfold bind at 1.
  destruct (round_body p (surface idx) st1 w1) as [s1 w1a] eqn:B1.
  assert (seen_keys w1a ⊆ seen_keys w1') as Mono.
  { destruct s1 as [[a|a|a]|e]; try (injection E1 as <- <-; done).
    destruct (rounds_from_spec fuel (S idx) p surface a w1a) as (r & w & new & E & G & _).
    rewrite E1 in E. injection E as <- <-. by eapply grows_seen_subset. }
  destruct (round_body_rerun p (surface idx) st1 st2 w1 w1a w2 s1 Hcap Hsp Hin B1)
    as (s2 & w2a & B2 & R2 & S2 & I2 & Rel).
  { by etrans. }
  rewrite B2.
  destruct s1 as [[a|a|a]|e], s2 as [[b|b|b]|e']; simpl in Rel; try done.
  - destruct Rel as [Sp Tb].
    destruct (IH (S idx) a b w1a w2a Sp (eq_trans Tb T) I2 E1) as (r2 & w2' & E2 & R & S & I & Rel).
    { by rewrite S2. }
    exists r2, w2'. split_and!; try done; congruence.
  - injection E1 as <- <-. exists (Ok b), w2a. destruct Rel as [Sp Tb].
    split_and!; try done. simpl. congruence.
  - injection E1 as <- <-. exists (Ok b), w2a. destruct Rel as [Sp Tb].
    split_and!; try done. simpl. congruence.
  - injection E1 as <- <-. subst e'. by exists (Raise e), w2a.
Qed.

Lemma stream_scroll_collect_rerun (p : params) (surface : nat → round_env)
    (w1 w1' w2 : world) (r1 : result Z) :
  max_reviews p ≤ 0 →
  stdin w2 = stdin w1 →
  stream_scroll_collect p surface w1 = (r1, w1') →
  seen_keys w1' ⊆ seen_keys w2 →
  ∃ r2 w2',
    stream_scroll_collect p surface w2 = (r2, w2')
    ∧ rows_of w2' = rows_of w2 ∧ seen_keys w2' = seen_keys w2
    ∧ stdin w2' = stdin w1'
    ∧ rerun_result (λ _ n, n = 0) r1 r2.
Proof.
  intros Hcap Hin E1 Hsub. unfold stream_scroll_collect, collect, bind in *.
  destruct (rounds_from (Z.to_nat (max_rounds p)) 0 p surface init_state w1)
    as [ra w1a] eqn:Ea.
  assert (w1a = w1') as -> by (destruct ra; by injection E1 as _ <-).
  destruct (rounds_from_rerun _ _ p surface init_state init_state init_state
              w1 w1' w2 ra Hcap (conj eq_refl eq_refl) eq_refl Hin Ea Hsub)
    as (rb & w2' & Eb & R & S & I & Rel).
  rewrite Eb.
  destruct ra as [a|e], rb as [b|e']; simpl in Rel; try done.
  - injection E1 as <-. exists (Ok (total_written b)), w2'. by split_and!.
  - injection E1 as <-. subst e'. by exists (Raise e), w2'.
Qed.

Lemma print_fields (m : message) (w : world) :
  seen_keys (print m w).2 = seen_keys w
  ∧ rows_of (print m w).2 = rows_of w
  ∧ stdin (print m w).2 = stdin w.
Proof. done. Qed.

Lemma scrape_place_rerun (a : args) (idx : Z) (url : string) (env : source_env)
    (w1 w1' w2 : world) (r1 : result loop_ctl) :
  a_max_reviews a ≤ 0 →
  stdin w2 = stdin w1 →
  scrape_place a idx url env w1 = (r1, w1') →
  seen_keys w1' ⊆ seen_keys w2 →
  ∃ w2',
    scrape_place a idx url env w2 = (r1, w2')
    ∧ rows_of w2' = rows_of w2 ∧ seen_keys w2' = seen_keys w2
    ∧ stdin w2' = stdin w1'.
Proof.
  intros Hcap Hin E1 Hsub. unfold scrape_place in *.
  destruct (falsy (found_scroll_sel env) || falsy (found_card_sel env)).
  { injection E1 as <- <-. eexists. split; [reflexivity|]. by split_and!. }
  unfold bind at 1 in E1. unfold bind at 1. unfold surface_call in *.
  destruct (ready_outcome env) as [[]|e].
  2:{ injection E1 as <- <-. by exists w2. }
  unfold ret at 1 in E1. unfold ret at 1. cbv beta iota in *.
  unfold bind at 1 in E1. unfold bind at 1.
  match type of E1 with context [stream_scroll_collect ?q ?s w1] =>
    destruct (stream_scroll_collect q s w1) as [ra w1a] eqn:Ea;
    assert (seen_keys w1a = seen_keys w1' ∧ stdin w1a = stdin w1') as [Sa Ia]
      by (destruct ra; injection E1 as <- <-; done);
    destruct (stream_scroll_collect_rerun q s w1 w1a w2 ra Hcap Hin Ea)
      as (rb & w2a & Eb & R & S & I & Rel); [by rewrite Sa|];
    rewrite Eb
  end.
  destruct ra as [n|e], rb as [n'|e']; simpl in Rel; try done.
  - injection E1 as <- <-. subst n'.
    eexists. split; [reflexivity|]. simpl. split_and!; try done.
  - injection E1 as <- <-. subst e'. by exists w2a.
Qed.

Lemma visit_rerun (a : args) (idx : Z) (url : string) (env : source_env)
    (w1 w1' w2 : world) (r1 : result loop_ctl) :
  a_max_reviews a ≤ 0 →
  stdin w2 = stdin w1 →
  visit a idx url env w1 = (r1, w1') →
  seen_keys w1' ⊆ seen_keys w2 →
  ∃ w2',
    visit a idx url env w2 = (r1, w2')
    ∧ rows_of w2' = rows_of w2 ∧ seen_keys w2' = seen_keys w2
    ∧ stdin w2' = stdin w1'.
Proof.
  intros Hcap Hin E1 Hsub. unfold visit in *.
  unfold bind at 1 in E1. unfold bind at 1. unfold surface_call in *.
  destruct (goto_outcome env) as [[]|e].
  2:{ injection E1 as <- <-. by exists w2. }
  unfold ret at 1 in E1. unfold ret at 1. cbv beta iota in *.
  destruct (detect_captcha_or_block (nav_page env));
    [|by eapply scrape_place_rerun].
  unfold bind at 1 in E1. unfold bind at 1.
  destruct (handle_by_stdin url (a_headful a) w1 w2 Hin) as [Hr Hs].
  destruct (handle_captcha_interactive url (a_headful a) w1) as [ra w1a] eqn:Ea.
  destruct (handle_captcha_interactive url (a_headful a) w2) as [rb w2a] eqn:Eb.
  simpl in Hr, Hs. subst rb.
  apply handle_captcha_frame in Ea as (Sa & Oa & _).
  apply handle_captcha_frame in Eb as (Sb & Ob & _).
  assert (rows_of w2a = rows_of w2) as Rb by (unfold rows_of; by rewrite Ob).
  destruct ra as [[]|e].
  - injection E1 as <- <-. eexists. split; [reflexivity|]. by split_and!.
  - injection E1 as <- <-. eexists. split; [reflexivity|]. by split_and!.
  - destruct (scrape_place_rerun a idx url env w1a w1' w2a r1 Hcap Hs E1)
      as (w2' & E2 & R & S & I); [by rewrite Sb|].
    exists w2'. split_and!; try done; congruence.
  - injection E1 as <- <-. by exists w2a.
Qed.

Lemma visit_guarded_rerun (a : args) (idx : Z) (url : string) (env : source_env)
    (w1 w1' w2 : world) (c : loop_ctl) :
  a_max_reviews a ≤ 0 →
  stdin w2 = stdin w1 →
  visit_guarded a idx url env w1 = (c, w1') →
  seen_keys w1' ⊆ seen_keys w2 →
  ∃ w2',
    visit_guarded a idx url env w2 = (c, w2')
    ∧ rows_of w2' = rows_of w2 ∧ seen_keys w2' = seen_keys w2
    ∧ stdin w2' = stdin w1'.
Proof.
  intros Hcap Hin E1 Hsub. unfold visit_guarded in *.
  destruct (visit a idx url env w1) as [ra w1a] eqn:Ea.
  assert (seen_keys w1a = seen_keys w1' ∧ stdin w1a = stdin w1') as [Sa Ia].
  { destruct ra as [c'|[]]; by injection E1 as <- <-. }
  destruct (visit_rerun a idx url env w1 w1a w2 ra Hcap Hin Ea) as (w2a & Eb & R & S & I);
    [by rewrite Sa|].
  rewrite Eb.
  destruct ra as [c'|[]]; injection E1 as <- <-;
    (eexists; split; [reflexivity|]; by split_and!).
Qed.

Lemma main_loop_rerun (a : args) (k : nat) (urls : list string)
    (surface : nat → source_env) (w1 w2 : world) :
  a_max_reviews a ≤ 0 →
  stdin w2 = stdin w1 →
  seen_keys (main_loop a k urls surface w1) ⊆ seen_keys w2 →
  rows_of (main_loop a k urls surface w2) = rows_of w2.
Proof.
  intros Hcap. revert k w1 w2.
  induction urls as [|url rest IH]; intros k w1 w2 Hin Hsub; [done|].
  simpl in *.
  destruct (visit_guarded a (Z.of_nat k + 1) url (surface k) w1) as [c w1a] eqn:Ea.
  assert (seen_keys w1a ⊆ seen_keys w2) as Hsub'.
  { destruct c; [|done]. etrans; [|exact Hsub].
    destruct (main_loop_extends a (S k) rest surface w1a) as (new & G & _).
    by eapply grows_seen_subset. }
  destruct (visit_guarded_rerun a _ url (surface k) w1 w1a w2 c Hcap Hin Ea Hsub')
    as (w2a & Eb & R & S & I).
  rewrite Eb. destruct c; [|done].
  rewrite <- R. eapply IH; [exact I|]. by rewrite S.
Qed.

Lemma rows_after_close (w : world) :
  rows_of (bind out_flush (λ _, print MsgDone) w).2 = rows_of w.
Proof. unfold rows_of, written_rows. simpl. by rewrite app_nil_r. Qed.

(** X17. Started again on the same addresses with the file a first run
    left behind, the same pages and the same answers of the operator, a
    run without cap writes no row: every card it meets has its key in the
    file already. The clock may differ. It holds when no digest is the
    empty string, as is the case for SHA-1 in hexadecimal; the file at
    start-up is taken to be empty or to end with a line break, as every
    file the program wrote does, so that each record appended is a line of
    its own. *)
Theorem rerun_emits_nothing (a : args) (url_lines : list string)
    (existing : list json_line) (operator : list (string * page_state))
    (time_time time_time' : nat → Z) (surface : nat → source_env) :
  (∀ s, Str.is_empty (hashlib_sha1_hexdigest s) = false) →
  a_max_reviews a ≤ 0 →
  rows_of
    (main a url_lines
       (existing
        ++ List.map line_of_row
             (rows_of (main a url_lines existing operator time_time surface)))
       operator time_time' surface) = [].
Proof.
  intros Hne Hcap. unfold main. cbv zeta.
  rewrite !rows_after_close.
  set (w1 := World (load_seen_keys existing) (OutFile [] []) operator time_time []).
  set (end1 := main_loop a 0 (load_urls url_lines) surface w1).
  match goal with |- context [main_loop a 0 _ surface ?w] => set (w2 := w) end.
  change (@nil Row) with (rows_of w2).
  apply (main_loop_rerun a 0 _ surface w1 w2 Hcap eq_refl).
  destruct (main_loop_extends a 0 (load_urls url_lines) surface w1)
    as (new & [GR _ GS _ _ GK] & _).
  fold end1 in GR, GS. change (rows_of w1) with (@nil Row) in GR. simpl in GR.
  intros k Hk. apply GS in Hk.
  unfold w2. simpl. unfold load_seen_keys. apply load_seen_lines_spec.
  destruct Hk as [Hk|Hk].
  - apply load_seen_lines_spec in Hk as [Hk|[Hk1 Hk2]]; [set_solver|].
    right. split; [done|]. apply in_or_app. by left.
  - right. unfold keys in Hk.
    apply list_elem_of_In, in_map_iff in Hk as (r & <- & Hr).
    rewrite List.Forall_forall in GK.
    pose proof (GK r Hr) as Kr.
    split.
    + unfold key_ok in Kr. rewrite Kr. apply Hne.
    + apply in_or_app. right. apply in_map_iff. exists r. split; [done|].
      by rewrite GR.
Qed.

(** ** The date of a record *)




End MoreProperties.


(** * The further properties at work *)

Lemma hex_keeps (n : nat) (x : Z) (tail : string) :
  Str.is_empty tail = false → Str.is_empty (SHA1.hex n x tail) = false.
Proof.
  revert x tail. induction n as [|n IH]; intros x tail H; [done|].
  simpl. by apply IH.
Qed.

(** A SHA-1 digest in hexadecimal is never the empty string. *)
Lemma hexdigest_not_empty (s : string) : Str.is_empty (SHA1.hexdigest s) = false.
Proof.
  unfold SHA1.hexdigest. cbv zeta.
  generalize (SHA1.blocks (length (SHA1.pad (SHA1.bytes_of_string s)))
                (SHA1.pad (SHA1.bytes_of_string s)) SHA1.init).
  intros r. generalize (SHA1.hex 8 (SHA1.hb r)
     (SHA1.hex 8 (SHA1.hc r) (SHA1.hex 8 (SHA1.hd r) (SHA1.hex 8 (SHA1.he r) "")))).
  intros tail. change (SHA1.hex 8 (SHA1.ha r) tail)
    with (SHA1.hex 7 (SHA1.ha r / 16)
            (String (SHA1.hex_digit (SHA1.ha r mod 16)) tail)).
  by apply hex_keeps.
Qed.

(** X5 at an operator who presses Enter on the blocked page, then types a
    word on the clear one. *)
Lemma continue_only_when_clear_witness :
  true = true
  ∧ ∃ line page,
      In (line, page) Cases.patient_operator
      ∧ detect_captcha_or_block page = false
      ∧ command line ≠ "q" ∧ command line ≠ "s".
Proof.
  apply (continue_only_when_clear Scenario.cafe_url true Cases.at_terminal
           (handle_captcha_interactive Scenario.cafe_url true Cases.at_terminal).2).
  vm_compute. reflexivity.
Defined.

(** X6 at a title of the maps portal. *)
Lemma cleanup_title_witness :
  Str.is_empty (cleanup_title Cases.portal_title) = false.
Proof.
  apply (proj2 (proj2 (cleanup_title_spec Cases.portal_title))).
  vm_compute. reflexivity.
Defined.

(** X7 at three cards above a watermark of 0. *)
Lemma js_extract_new_witness :
  0 < (js_extract_new Scenario.three_cards 0).2
  ∧ ∃ it, In it (js_extract_new Scenario.three_cards 0).1
          ∧ it_pos it = (js_extract_new Scenario.three_cards 0).2.
Proof.
  apply (proj2 (proj2 (proj2 (js_extract_new_spec Scenario.three_cards 0)))).
  vm_compute. discriminate.
Defined.

(** X8 at the first round of [Scenario.steady_rounds]. *)
Lemma round_covers_its_cards_witness :
  max_pos_parsed Cases.first_round.1
  = (js_extract_new Scenario.three_cards (max_pos_parsed init_state)).2
  ∧ js_extract_new Scenario.three_cards (max_pos_parsed Cases.first_round.1)
    = ([], max_pos_parsed Cases.first_round.1).
Proof.
  apply (round_covers_its_cards Scenario.unlimited
           (Scenario.steady_rounds Scenario.cafe_url 0) init_state Cases.first_round.1
           Scenario.fresh_world Cases.first_round.2 (Proceed Cases.first_round.1)).
  - vm_compute. reflexivity.
  - left. reflexivity.
  - reflexivity.
Defined.

(** X9 at the first record of [Scenario.run_a]. *)
Lemma run_rows_wellformed_witness :
  row_wellformed (load_urls [Scenario.cafe_url]) Scenario.row_a.
Proof.
  apply (run_rows_wellformed Scenario.headless [Scenario.cafe_url] [] []
           Reference.clock (fun _ => Cases.cafe)).
  vm_compute. left. reflexivity.
Defined.

(** X11 at a headless run that meets the challenge page while a line is
    ready in the terminal. *)
Lemma headless_run_leaves_terminal_witness :
  stdin (main Scenario.headless [Scenario.cafe_url] [] Cases.patient_operator
           Reference.clock (fun _ => Cases.cafe_blocked_late))
  = Cases.patient_operator.
Proof.
  apply (proj1 (headless_run_leaves_terminal Scenario.headless [Scenario.cafe_url] []
                  Cases.patient_operator Reference.clock
                  (fun _ => Cases.cafe_blocked_late))).
  reflexivity.
Defined.


(** X13 at the visit of one address. *)
Lemma output_only_grows_witness :
  rows_of Scenario.fresh_world `prefix_of` rows_of Cases.cafe_visit.2
  ∧ flushed (out_f Scenario.fresh_world) `prefix_of` flushed (out_f Cases.cafe_visit.2)
  ∧ seen_keys Scenario.fresh_world ⊆ seen_keys Cases.cafe_visit.2
  ∧ (all_flushed Scenario.fresh_world → all_flushed Cases.cafe_visit.2).
Proof.
  apply (proj1 (output_only_grows Scenario.headless (fun _ => Cases.cafe)
                  Scenario.fresh_world)
           1 Scenario.cafe_url Cases.cafe NextUrl Cases.cafe_visit.2).
  vm_compute. reflexivity.
Defined.

(** X14 at a budget of zero rounds. *)
Lemma no_rounds_no_effect_witness :
  stream_scroll_collect Cases.no_budget (Scenario.steady_rounds Scenario.cafe_url)
    Scenario.fresh_world
  = (Ok 0, Scenario.fresh_world).
Proof.
  apply (no_rounds_no_effect Cases.no_budget (Scenario.steady_rounds Scenario.cafe_url)
           Scenario.fresh_world).
  simpl. lia.
Defined.

(** X15 at two surfaces that part after their first round. *)
Lemma zero_stall_limit_one_round_witness :
  stream_scroll_collect Cases.no_patience (Scenario.steady_rounds Scenario.cafe_url)
    Scenario.fresh_world
  = stream_scroll_collect Cases.no_patience (Scenario.blocked_after_one Scenario.cafe_url)
      Scenario.fresh_world.
Proof.
  apply (zero_stall_limit_one_round Cases.no_patience
           (Scenario.steady_rounds Scenario.cafe_url)
           (Scenario.blocked_after_one Scenario.cafe_url) Scenario.fresh_world).
  - simpl. lia.
  - reflexivity.
Defined.

(** X16 at a surface whose extraction always times out. *)
Lemma timeouts_end_quietly_witness :
  stream_scroll_collect Scenario.unlimited Cases.slow_rounds Scenario.fresh_world
  = (Ok 0, Scenario.fresh_world).
Proof.
  apply (timeouts_end_quietly Scenario.unlimited Cases.slow_rounds Scenario.fresh_world).
  intros i. split; [vm_compute; reflexivity|]. split; reflexivity.
Defined.

(** X17 at [Scenario.run_a], started again a day later. *)
Lemma rerun_emits_nothing_witness :
  rows_of
    (main Scenario.headless [Scenario.cafe_url]
       ([] ++ List.map line_of_row
                (rows_of (main Scenario.headless [Scenario.cafe_url] [] []
                            Reference.clock (fun _ => Cases.cafe))))
       [] (fun k => Z.of_nat k + 1700086400) (fun _ => Cases.cafe))
  = [].
Proof.
  apply (rerun_emits_nothing Scenario.headless [Scenario.cafe_url] [] []
           Reference.clock (fun k => Z.of_nat k + 1700086400) (fun _ => Cases.cafe)).
  - exact hexdigest_not_empty.
  - simpl. lia.
Defined.

